(** * tiny_speechtotext: spoken-text normalisation and the dictation session

    A shallow embedding of [amd/src/commands.js] (the revision with the
    phrase resolver [matchPunctuation], the capitalising normaliser
    [processTextWithPunctuation] and the per-editor session state), together
    with the properties the specification states about it.

    Modelling conventions.
    - JavaScript strings are modelled by [string] over the ASCII alphabet of
      the en-US recogniser and of the punctuation table: white space ([\s],
      [trim]) is TAB, LF, VT, FF, CR and SPACE, and the case conversions act
      on the letters a-z / A-Z and leave every other character alone.  On
      strings of ASCII characters ([isAscii]) these are the JavaScript
      functions; a property whose truth depends on white space or letter
      case outside ASCII is stated for [isAscii] strings.
    - Arrays are lists, indices and counters are [nat].
    - [punctuationMap] is a plain object literal, so a property read on it
      follows the prototype chain to [Object.prototype]; both layers are
      modelled.
    - Loops are modelled by their body and a fuel-indexed iteration; the
      fuel that suffices is established separately.
    - The editor, the recogniser and the preview panel are collaborators:
      their observable interactions are recorded in a trace of effects. *)

From Stdlib Require Import String Ascii List Bool Arith Lia.
Import ListNotations.
Local Open Scope list_scope.
Local Open Scope string_scope.

(** ** Strings as JavaScript uses them *)

Module JsString.

Definition LF : ascii := "010"%char.
Definition SP : ascii := " "%char.

Definition charIn (c : ascii) (cs : list ascii) : bool :=
  existsb (Ascii.eqb c) cs.

(** The class [\s] restricted to ASCII; [trim] strips the same characters.
    JavaScript counts further characters outside ASCII as white space
    (U+00A0, U+2028, U+FEFF and others), which a string of ASCII characters
    does not contain. *)
Definition whiteSpace : list ascii :=
  ["009"%char; LF; "011"%char; "012"%char; "013"%char; SP].

Definition isWhiteSpace (c : ascii) : bool := charIn c whiteSpace.

Definition isLower (c : ascii) : bool :=
  ((97 <=? nat_of_ascii c) && (nat_of_ascii c <=? 122))%nat.

Definition isUpper (c : ascii) : bool :=
  ((65 <=? nat_of_ascii c) && (nat_of_ascii c <=? 90))%nat.

(** [toUpperCase] and [toLowerCase] on one character of an ASCII string:
    only the letters a-z and A-Z change.  (JavaScript also maps letters
    outside ASCII, some of them to more than one character.) *)
Definition toUpperChar (c : ascii) : ascii :=
  if isLower c then ascii_of_nat (nat_of_ascii c - 32) else c.

Definition toLowerChar (c : ascii) : ascii :=
  if isUpper c then ascii_of_nat (nat_of_ascii c + 32) else c.

Fixpoint toLowerCase (s : string) : string :=
  match s with
  | EmptyString => EmptyString
  | String c r => String (toLowerChar c) (toLowerCase r)
  end.

Fixpoint toUpperCase (s : string) : string :=
  match s with
  | EmptyString => EmptyString
  | String c r => String (toUpperChar c) (toUpperCase r)
  end.

Fixpoint allWhite (s : string) : bool :=
  match s with
  | EmptyString => true
  | String c r => isWhiteSpace c && allWhite r
  end.

Fixpoint trimStart (s : string) : string :=
  match s with
  | EmptyString => EmptyString
  | String c r => if isWhiteSpace c then trimStart r else s
  end.

Fixpoint trimEnd (s : string) : string :=
  match s with
  | EmptyString => EmptyString
  | String c r =>
      if isWhiteSpace c && allWhite r then EmptyString
      else String c (trimEnd r)
  end.

Definition trim (s : string) : string := trimEnd (trimStart s).

(** [s.charAt(0)] and [s.slice(1)]. *)
Definition charAt0 (s : string) : string :=
  match s with
  | EmptyString => EmptyString
  | String c _ => String c EmptyString
  end.

Definition slice1 (s : string) : string :=
  match s with
  | EmptyString => EmptyString
  | String _ r => r
  end.

(** [s.endsWith(t)]. *)
Definition endsWith (s t : string) : bool :=
  (String.length t <=? String.length s)%nat &&
  String.eqb (substring (String.length s - String.length t) (String.length t) s) t.

Definition startsWithWhite (s : string) : bool :=
  match s with
  | EmptyString => false
  | String c _ => isWhiteSpace c
  end.

(** [s.split(/\s+/)]: maximal runs of white space separate the pieces; a
    leading or trailing run leaves an empty piece, and the empty string
    splits into one empty piece. *)
Fixpoint splitWhite (s : string) : list string :=
  match s with
  | EmptyString => [EmptyString]
  | String c r =>
      if isWhiteSpace c then
        if startsWithWhite r then splitWhite r
        else EmptyString :: splitWhite r
      else
        match splitWhite r with
        | w :: ws => String c w :: ws
        | [] => [String c EmptyString]
        end
  end.

(** [ws.join(sep)]. *)
Fixpoint join (sep : string) (ws : list string) : string :=
  match ws with
  | [] => EmptyString
  | [w] => w
  | w :: rest => w ++ sep ++ join sep rest
  end.

(** [ws.slice(from, to)] for [from <= to]. *)
Definition slice {A : Type} (ws : list A) (from to : nat) : list A :=
  firstn (to - from) (skipn from ws).

(** The regular-expression tests of the source. *)

(** [/^[a-z]/.test(s)] *)
Definition startsLower (s : string) : bool :=
  match s with
  | EmptyString => false
  | String c _ => isLower c
  end.

(** [/^[.,!?;:)\]]/.test(s)] *)
Definition leadingPunctuation : list ascii :=
  ["."%char; ","%char; "!"%char; "?"%char; ";"%char; ":"%char; ")"%char; "]"%char].

Definition startsPunctuation (s : string) : bool :=
  match s with
  | EmptyString => false
  | String c _ => charIn c leadingPunctuation
  end.

(** [/[.!?]\s*$/.test(s)]: some position holds one of [. ! ?] and only
    white space follows it up to the end of the string. *)
Definition sentenceEnders : list ascii := ["."%char; "!"%char; "?"%char].

Fixpoint matchesSentenceEnd (s : string) : bool :=
  match s with
  | EmptyString => false
  | String c r => (charIn c sentenceEnders && allWhite r) || matchesSentenceEnd r
  end.

End JsString.

Import JsString.

(** The strings on which the model and JavaScript agree character for
    character: every character is below 128. *)
Definition isAsciiChar (c : ascii) : bool := (nat_of_ascii c <? 128)%nat.

Fixpoint isAscii (s : string) : bool :=
  match s with
  | EmptyString => true
  | String c r => isAsciiChar c && isAscii r
  end.

(** ** The punctuation table and the values a property read can yield *)

Definition newline : string := String LF EmptyString.
Definition blankLine : string := String LF (String LF EmptyString).

(** What [obj[key]] can evaluate to on [punctuationMap]: one of its own
    string entries, or a member inherited from [Object.prototype]. *)
Inductive JsValue : Type :=
| JsStr (s : string)
| JsNativeFunction (name : string)
| JsObjectPrototype.

(** String conversion as performed by [result += value].  The text of a
    built-in function is the rendering of V8; other engines lay the same
    words out with line breaks and indentation, so what is proved about the
    spacing inside the output is stated for inputs that resolve no
    inherited member ([ownPhrasesOnly]). *)
Definition toJsString (v : JsValue) : string :=
  match v with
  | JsStr s => s
  | JsNativeFunction name => "function " ++ name ++ "() { [native code] }"
  | JsObjectPrototype => "[object Object]"
  end.

Definition truthy (v : JsValue) : bool :=
  match v with
  | JsStr s => negb (String.eqb s EmptyString)
  | _ => true
  end.

Definition punctuationMap : list (string * string) :=
  [ ("full stop", ".");
    ("period", ".");
    ("dot", ".");
    ("comma", ",");
    ("question mark", "?");
    ("exclamation mark", "!");
    ("exclamation point", "!");
    ("semicolon", ";");
    ("semi colon", ";");
    ("colon", ":");
    ("dash", "-");
    ("hyphen", "-");
    ("apostrophe", "'");
    ("quotation mark", String (ascii_of_nat 34) EmptyString);
    ("quote", String (ascii_of_nat 34) EmptyString);
    ("open bracket", "(");
    ("close bracket", ")");
    ("open parenthesis", "(");
    ("close parenthesis", ")");
    ("new line", newline);
    ("new paragraph", blankLine) ].

(** The members every plain object inherits. *)
Definition objectPrototype : list (string * JsValue) :=
  [ ("constructor", JsNativeFunction "Object");
    ("__defineGetter__", JsNativeFunction "__defineGetter__");
    ("__defineSetter__", JsNativeFunction "__defineSetter__");
    ("hasOwnProperty", JsNativeFunction "hasOwnProperty");
    ("__lookupGetter__", JsNativeFunction "__lookupGetter__");
    ("__lookupSetter__", JsNativeFunction "__lookupSetter__");
    ("isPrototypeOf", JsNativeFunction "isPrototypeOf");
    ("propertyIsEnumerable", JsNativeFunction "propertyIsEnumerable");
    ("toString", JsNativeFunction "toString");
    ("valueOf", JsNativeFunction "valueOf");
    ("__proto__", JsObjectPrototype);
    ("toLocaleString", JsNativeFunction "toLocaleString") ].

Fixpoint assoc {V : Type} (key : string) (entries : list (string * V)) : option V :=
  match entries with
  | [] => None
  | (k, v) :: rest => if String.eqb k key then Some v else assoc key rest
  end.

(** [punctuationMap[key]]: an own entry, else an inherited member, else
    [undefined] (here [None]). *)
Definition getProperty (key : string) : option JsValue :=
  match assoc key punctuationMap with
  | Some s => Some (JsStr s)
  | None => assoc key objectPrototype
  end.

(** Punctuation marks that trigger capitalization of the next word. *)
Definition sentenceEndingPunctuation : list string := ["."; "?"; "!"; blankLine].

Definition isSentenceEnding (symbol : JsValue) : bool :=
  match symbol with
  | JsStr s => existsb (String.eqb s) sentenceEndingPunctuation
  | _ => false
  end.

(** [punctuationMap[normalized] || null]. *)
Definition getPunctuationSymbol (phrase : string) : option JsValue :=
  let normalized := trim (toLowerCase phrase) in
  match getProperty normalized with
  | Some v => if truthy v then Some v else None
  | None => None
  end.

(** The [for] loop of [matchPunctuation], counting [wordCount] down to 1. *)
Fixpoint matchPunctuationFrom (wordCount : nat) (words : list string) (startIndex : nat)
  : option (JsValue * nat) :=
  match wordCount with
  | O => None
  | S fewer =>
      if (startIndex + wordCount <=? List.length words)%nat then
        let phrase := join " " (slice words startIndex (startIndex + wordCount)) in
        match getPunctuationSymbol phrase with
        | Some symbol => Some (symbol, wordCount)
        | None => matchPunctuationFrom fewer words startIndex
        end
      else matchPunctuationFrom fewer words startIndex
  end.

Definition matchPunctuation (words : list string) (startIndex : nat)
  : option (JsValue * nat) :=
  matchPunctuationFrom 3 words startIndex.

Definition capitalizeWord (word : string) : string :=
  if (String.length word =? 0)%nat then word
  else toUpperCase (charAt0 word) ++ slice1 word.

Definition getSpacingBefore (currentResult : string) : string :=
  if (String.length currentResult =? 0)%nat then ""
  else if endsWith currentResult newline || endsWith currentResult " " then ""
  else " ".

(** The variables of the scanning loop of [processTextWithPunctuation]. *)
Record LoopState : Type := mkLoop {
  ls_i : nat;
  ls_result : string;
  ls_shouldCapitalize : bool
}.

(** [symbol !== '\n' && symbol !== '\n\n'] *)
Definition isLineBreak (symbol : JsValue) : bool :=
  match symbol with
  | JsStr s => String.eqb s newline || String.eqb s blankLine
  | _ => false
  end.

(** One iteration of the [while] body. *)
Definition loopBody (words : list string) (st : LoopState) : LoopState :=
  match matchPunctuation words (ls_i st) with
  | Some (symbol, wordsConsumed) =>
      let result1 := ls_result st ++ toJsString symbol in
      let result2 := if isLineBreak symbol then result1 else result1 ++ " " in
      let capitalize := if isSentenceEnding symbol then true else ls_shouldCapitalize st in
      mkLoop (ls_i st + wordsConsumed) result2 capitalize
  | None =>
      let result1 := ls_result st ++ getSpacingBefore (ls_result st) in
      let word := nth (ls_i st) words "undefined" in
      let word' := if ls_shouldCapitalize st then capitalizeWord word else word in
      mkLoop (S (ls_i st)) (result1 ++ word') false
  end.

(** [while (i < words.length) body]; [None] when the fuel runs out first. *)
Fixpoint whileLoop (fuel : nat) (words : list string) (st : LoopState) : option LoopState :=
  if (ls_i st <? List.length words)%nat then
    match fuel with
    | O => None
    | S fuel' => whileLoop fuel' words (loopBody words st)
    end
  else Some st.

Definition initialLoop : LoopState := mkLoop 0 "" false.

(** [text.trim().split(/\s+/)] *)
Definition wordsOf (text : string) : list string := splitWhite (trim text).

Definition processTextWithPunctuationFuel (fuel : nat) (text : string) : option string :=
  if String.eqb text "" || String.eqb (trim text) "" then Some ""
  else option_map ls_result (whileLoop fuel (wordsOf text) initialLoop).

(** The normaliser.  One unit of fuel per word is enough for the loop to
    reach its exit ([processTextWithPunctuation_fuel]), so the fall-back
    branch below is never taken. *)
Definition processTextWithPunctuation (text : string) : string :=
  match processTextWithPunctuationFuel (List.length (wordsOf text)) text with
  | Some result => result
  | None => ""
  end.

(** ** Preparing text for insertion *)

(** The editor handle, as far as the code uses it: [getContent({format:
    'text'})] reads [content]; [insertContent] is modelled with the cursor
    at the end of the document. *)
Record Editor : Type := mkEditor { content : string }.

Definition getContent (editor : Editor) : string := content editor.

Definition insertContent (editor : Editor) (text : string) : Editor :=
  mkEditor (content editor ++ text).

Definition shouldCapitalizeText (editorContent textToInsert : string) : bool :=
  if (String.length editorContent =? 0)%nat || negb (startsLower textToInsert) then false
  else matchesSentenceEnd (trim editorContent).

Definition needsSpaceBefore (editorContent textToInsert : string) : bool :=
  if (String.length editorContent =? 0)%nat then false
  else if endsWith editorContent " " || endsWith editorContent newline then false
  else if startsPunctuation textToInsert then false
  else true.

Definition prepareTextForInsertion (editor : Editor) (text : string) : string :=
  let currentContent := getContent editor in
  let finalText := text in
  let finalText :=
    if shouldCapitalizeText currentContent finalText then capitalizeWord finalText
    else finalText in
  let finalText :=
    if needsSpaceBefore currentContent finalText then " " ++ finalText
    else finalText in
  finalText.

(** ** The dictation session *)

(** One slot of [event.results]: [results[i][0].transcript] and
    [results[i].isFinal]. *)
Record SpeechRecognitionResult : Type := mkResult {
  transcript : string;
  isFinal : bool
}.

Record SpeechRecognitionEvent : Type := mkEvent {
  resultIndex : nat;
  results : list SpeechRecognitionResult
}.

(** The per-editor state object created by [getEditorState].  [recognition]
    records whether the field holds a recogniser ([true]) or [null];
    [previewContainer] holds the text shown in the panel when it exists. *)
Record EditorState : Type := mkState {
  recognition : bool;
  listening : bool;
  finalTranscript : string;
  previewContainer : option string
}.

(** The state [getEditorState] installs on first use. *)
Definition newEditorState : EditorState := mkState false false "" None.

(** Calls made on the collaborators, oldest first. *)
Inductive Effect : Type :=
| RecognitionCreated
| RecognitionStart
| RecognitionStop
| PreviewShown
| PreviewRemoved
| PreviewText (text : string)
| InsertContent (text : string)
| ConsoleError
| ConsoleWarn.

(** Everything a handler reads or writes.  [speechApi] tells whether
    [window] offers [SpeechRecognition] or [webkitSpeechRecognition]. *)
Record World : Type := mkWorld {
  state : EditorState;
  editor : Editor;
  speechApi : bool;
  trace : list Effect
}.

Definition setState (w : World) (st : EditorState) : World :=
  mkWorld st (editor w) (speechApi w) (trace w).

Definition emit (w : World) (e : Effect) : World :=
  mkWorld (state w) (editor w) (speechApi w) (trace w ++ [e]).

Definition setListening (w : World) (b : bool) : World :=
  setState w (mkState (recognition (state w)) b (finalTranscript (state w))
                      (previewContainer (state w))).

Definition setFinalTranscript (w : World) (t : string) : World :=
  setState w (mkState (recognition (state w)) (listening (state w)) t
                      (previewContainer (state w))).

Definition setPreviewContainer (w : World) (p : option string) : World :=
  setState w (mkState (recognition (state w)) (listening (state w))
                      (finalTranscript (state w)) p).

Definition setRecognition (w : World) (r : bool) : World :=
  setState w (mkState r (listening (state w)) (finalTranscript (state w))
                      (previewContainer (state w))).

Definition showPreview (w : World) : World :=
  match previewContainer (state w) with
  | Some _ => w
  | None => emit (setPreviewContainer w (Some "")) PreviewShown
  end.

Definition hidePreview (w : World) : World :=
  match previewContainer (state w) with
  | Some _ => emit (setPreviewContainer w None) PreviewRemoved
  | None => w
  end.

Definition updatePreview (w : World) (text : string) : World :=
  match previewContainer (state w) with
  | Some _ =>
      let shown := processTextWithPunctuation text in
      emit (setPreviewContainer w (Some shown)) (PreviewText shown)
  | None => w
  end.

Definition handleFinalTranscript (w : World) : World :=
  if String.eqb (finalTranscript (state w)) "" then w
  else
    let processedText := processTextWithPunctuation (finalTranscript (state w)) in
    let textToInsert := prepareTextForInsertion (editor w) processedText in
    let w := emit (mkWorld (state w) (insertContent (editor w) textToInsert)
                           (speechApi w) (trace w))
                  (InsertContent textToInsert) in
    let w := setFinalTranscript w "" in
    updatePreview w "".

(** The collecting [for] loop of [handleRecognitionResult]: [count] slots
    starting at index [i], accumulating into [state.finalTranscript] and the
    local [interimTranscript]. *)
Fixpoint collectResults (count : nat) (slots : list SpeechRecognitionResult) (i : nat)
  (finalText interimTranscript : string) : string * string :=
  match count with
  | O => (finalText, interimTranscript)
  | S count' =>
      match nth_error slots i with
      | Some slot =>
          if isFinal slot then
            collectResults count' slots (S i)
              (finalText ++ (transcript slot ++ " ")) interimTranscript
          else
            collectResults count' slots (S i)
              finalText (interimTranscript ++ transcript slot)
      | None => (finalText, interimTranscript)
      end
  end.

Definition handleRecognitionResult (w : World) (event : SpeechRecognitionEvent) : World :=
  let '(finalText, interimTranscript) :=
    collectResults (List.length (results event) - resultIndex event) (results event)
      (resultIndex event) (finalTranscript (state w)) "" in
  let w := setFinalTranscript w finalText in
  let w := if String.eqb interimTranscript "" then w
           else updatePreview w interimTranscript in
  handleFinalTranscript w.

(** [initializeRecognition]: without the Web Speech API it only warns. *)
Definition initializeRecognition (w : World) : World :=
  if speechApi w then emit (setRecognition w true) RecognitionCreated
  else emit w ConsoleWarn.

Definition onerror (w : World) : World :=
  hidePreview (setListening (emit w ConsoleError) false).

Definition onend (w : World) : World :=
  hidePreview (setListening w false).

(** The click handler of the preview's close button. *)
Definition closeButtonClick (w : World) : World :=
  let w := if listening (state w) && recognition (state w)
           then setListening (emit w RecognitionStop) false
           else w in
  hidePreview w.

(** The toolbar action.  [startThrows] tells whether [recognition.start()]
    raises; the result is [None] when an exception leaves the handler
    (calling [stop] on a [null] recogniser). *)
Definition handleAction (startThrows : bool) (w : World) : option World :=
  if negb (listening (state w)) then
    let w := if negb (recognition (state w)) then initializeRecognition w else w in
    let w := showPreview w in
    if negb (recognition (state w)) || startThrows then
      Some (hidePreview (emit w ConsoleError))
    else
      Some (setListening (emit w RecognitionStart) true)
  else
    if recognition (state w) then
      Some (hidePreview (setListening (emit w RecognitionStop) false))
    else None.

(** What can happen to a session between two quiescent points. *)
Inductive Event : Type :=
| Action (startThrows : bool)
| OnResult (event : SpeechRecognitionEvent)
| OnError
| OnEnd
| CloseClick
| UserEdit (newContent : string).

Definition step (w : World) (e : Event) : option World :=
  match e with
  | Action startThrows => handleAction startThrows w
  | OnResult event => Some (handleRecognitionResult w event)
  | OnError => Some (onerror w)
  | OnEnd => Some (onend w)
  | CloseClick => Some (closeButtonClick w)
  | UserEdit newContent => Some (mkWorld (state w) (mkEditor newContent) (speechApi w) (trace w))
  end.

Fixpoint run (w : World) (events : list Event) : option World :=
  match events with
  | [] => Some w
  | e :: rest =>
      match step w e with
      | Some w' => run w' rest
      | None => None
      end
  end.

Definition initialWorld (api : bool) (document : string) : World :=
  mkWorld newEditorState (mkEditor document) api [].

(** The worlds a session can be in. *)
Inductive reachable : World -> Prop :=
| reachable_initial : forall api document, reachable (initialWorld api document)
| reachable_step : forall w e w', reachable w -> step w e = Some w' -> reachable w'.

(** ** Vocabulary of the specification *)

Module Spec.






(** The phrase resolver in the words of the specification: windows of
    three, two and one words from [startIndex], each joined with single
    spaces, lower-cased, trimmed and looked up in the punctuation table;
    the first hit wins. *)
Definition lookupTable (phrase : string) : option string :=
  assoc (trim (toLowerCase phrase)) punctuationMap.

Definition window (words : list string) (startIndex len : nat) : list string :=
  firstn len (skipn startIndex words).

Definition tryWindow (words : list string) (startIndex len : nat) : option (string * nat) :=
  if (startIndex + len <=? List.length words)%nat then
    match lookupTable (join " " (window words startIndex len)) with
    | Some symbol => Some (symbol, len)
    | None => None
    end
  else None.

Definition resolve (words : list string) (startIndex : nat) : option (string * nat) :=
  match tryWindow words startIndex 3 with
  | Some r => Some r
  | None =>
      match tryWindow words startIndex 2 with
      | Some r => Some r
      | None => tryWindow words startIndex 1
      end
  end.

(** A window whose normalised phrase names a member of [Object.prototype]. *)
Definition inheritedWindow (words : list string) (startIndex len : nat) : bool :=
  match assoc (trim (toLowerCase (join " " (window words startIndex len)))) objectPrototype with
  | Some _ => true
  | None => false
  end.

(** The slots an event asks the handler to look at, and what they add to
    the two accumulators. *)
Definition slotsFrom (event : SpeechRecognitionEvent) : list SpeechRecognitionResult :=
  skipn (resultIndex event) (results event).

Definition finalText (slots : list SpeechRecognitionResult) : string :=
  String.concat "" (map (fun slot => transcript slot ++ " ") (filter isFinal slots)).

Definition interimText (slots : list SpeechRecognitionResult) : string :=
  String.concat "" (map transcript (filter (fun slot => negb (isFinal slot)) slots)).



End Spec.

(** No window of one to three words of [words] names a member inherited
    from [Object.prototype]: every phrase the resolver finds in [words] is
    an entry of the table itself. *)
Definition ownPhrasesOnly (words : list string) : bool :=
  forallb (fun i => negb (Spec.inheritedWindow words i 1
                          || Spec.inheritedWindow words i 2
                          || Spec.inheritedWindow words i 3))
          (seq 0 (List.length words)).


(** The loop state after [k] iterations. *)
Fixpoint iterate (k : nat) (words : list string) (st : LoopState) : LoopState :=
  match k with
  | O => st
  | S k' => iterate k' words (loopBody words st)
  end.

(** No space directly after a space or a line feed. *)
Definition isGap (c : ascii) : bool := Ascii.eqb c SP || Ascii.eqb c LF.

Fixpoint wellSpaced (s : string) : bool :=
  match s with
  | EmptyString => true
  | String a r =>
      match r with
      | String b _ => negb (isGap a && Ascii.eqb b SP)
      | EmptyString => true
      end && wellSpaced r
  end.

Fixpoint lastChar (s : string) : option ascii :=
  match s with
  | EmptyString => None
  | String c EmptyString => Some c
  | String _ r => lastChar r
  end.

Definition endsGap (s : string) : bool :=
  match lastChar s with
  | Some c => isGap c
  | None => false
  end.

Definition startsSpace (s : string) : bool :=
  match s with
  | String c _ => Ascii.eqb c SP
  | EmptyString => false
  end.

Fixpoint noWhite (s : string) : bool :=
  match s with
  | EmptyString => true
  | String c r => negb (isWhiteSpace c) && noWhite r
  end.

(** What the spacing argument needs of the text of a symbol: it is not
    empty, well spaced in itself, does not begin with a space and, unless it
    is a line break, does not end in a space or line feed. *)
Definition spacedSymbol (v : JsValue) : bool :=
  let t := toJsString v in
  negb (String.eqb t "") && wellSpaced t && negb (startsSpace t)
  && (isLineBreak v || negb (endsGap t)).

(** The part of it that holds of every symbol, inherited ones included:
    the text is not empty and does not begin with a space. *)
Definition headedSymbol (v : JsValue) : bool :=
  negb (String.eqb (toJsString v) "") && negb (startsSpace (toJsString v)).

Definition plainWord (w : string) : bool := negb (String.eqb w "") && noWhite w.

(** What holds of a session between any two events: nothing is pending,
    and the preview panel exists exactly while the session listens, which
    it only does with a recogniser at hand. *)
Definition sessionInvariant (w : World) : Prop :=
  finalTranscript (state w) = ""
  /\ (listening (state w) = true ->
      recognition (state w) = true /\ previewContainer (state w) <> None)
  /\ (listening (state w) = false -> previewContainer (state w) = None).

(** A session that has just been started on a document reading "Hi.". *)
Definition listeningWorld : World :=
  mkWorld (mkState true true "" (Some "")) (mkEditor "Hi.") true
          [RecognitionCreated; PreviewShown; RecognitionStart].

(** The same session after the toolbar action has stopped it. *)
Definition stoppedWorld : World :=
  mkWorld (mkState true false "" None) (mkEditor "Hi.") true
          [RecognitionCreated; PreviewShown; RecognitionStart;
           RecognitionStop; PreviewRemoved].

(** ** The registry of editor states *)

(** Editors are told apart by identity; [editorStates] is the [WeakMap]
    from editors to their state objects, newest binding first. *)
Definition EditorId : Type := nat.

Definition WeakMap : Type := list (EditorId * EditorState).

Fixpoint weakMapGet (m : WeakMap) (key : EditorId) : option EditorState :=
  match m with
  | [] => None
  | (k, v) :: rest => if Nat.eqb k key then Some v else weakMapGet rest key
  end.

Definition weakMapHas (m : WeakMap) (key : EditorId) : bool :=
  match weakMapGet m key with
  | Some _ => true
  | None => false
  end.

Definition weakMapSet (m : WeakMap) (key : EditorId) (v : EditorState) : WeakMap :=
  (key, v) :: m.

(** [getEditorState]: the map after the call and the value of
    [editorStates.get(editor)] ([None] for [undefined]). *)
Definition getEditorState (editorStates : WeakMap) (editor : EditorId)
  : WeakMap * option EditorState :=
  let editorStates :=
    if negb (weakMapHas editorStates editor)
    then weakMapSet editorStates editor newEditorState
    else editorStates in
  (editorStates, weakMapGet editorStates editor).

(** ** Effects of the handlers, classified *)

Definition isTextEffect (e : Effect) : bool :=
  match e with
  | PreviewText _ | InsertContent _ => true
  | _ => false
  end.

Definition isInsert (e : Effect) : bool :=
  match e with
  | InsertContent _ => true
  | _ => false
  end.

Definition isCreated (e : Effect) : bool :=
  match e with
  | RecognitionCreated => true
  | _ => false
  end.

Definition isStart (e : Effect) : bool :=
  match e with
  | RecognitionStart => true
  | _ => false
  end.

Definition isShown (e : Effect) : bool :=
  match e with
  | PreviewShown => true
  | _ => false
  end.

Definition isRemoved (e : Effect) : bool :=
  match e with
  | PreviewRemoved => true
  | _ => false
  end.

Definition countEffects (p : Effect -> bool) (tr : list Effect) : nat :=
  List.length (filter p tr).

(** ** The first revision of the file: normaliser without capitalisation *)

Module Rev1.

(** The variables of the inner [for] loop. *)
Record Scan : Type := mkScan {
  matched : bool;
  punctSymbol : option JsValue;
  wordsConsumed : nat
}.

(** The inner [for] loop, with its [break]. *)
Fixpoint scanWindows (wordCount : nat) (words : list string) (i : nat) (sc : Scan) : Scan :=
  match wordCount with
  | O => sc
  | S fewer =>
      if (i + wordCount <=? List.length words)%nat then
        let phrase := join " " (slice words i (i + wordCount)) in
        let symbol := getPunctuationSymbol phrase in
        match symbol with
        | Some _ => mkScan true symbol wordCount
        | None => scanWindows fewer words i (mkScan (matched sc) symbol (wordsConsumed sc))
        end
      else scanWindows fewer words i sc
  end.

Record LoopState : Type := mkLoop {
  ls_i : nat;
  ls_result : string
}.

Definition loopBody (words : list string) (st : LoopState) : LoopState :=
  let sc := scanWindows 3 words (ls_i st) (mkScan false None 0) in
  match matched sc, punctSymbol sc with
  | true, Some symbol =>
      let result1 := ls_result st ++ toJsString symbol in
      let result2 := if isLineBreak symbol then result1 else result1 ++ " " in
      mkLoop (ls_i st + wordsConsumed sc) result2
  | _, _ =>
      let result1 :=
        if (0 <? String.length (ls_result st))%nat
           && negb (endsWith (ls_result st) newline)
           && negb (endsWith (ls_result st) " ")
        then ls_result st ++ " "
        else ls_result st in
      mkLoop (S (ls_i st)) (result1 ++ nth (ls_i st) words "undefined")
  end.

Fixpoint whileLoop (fuel : nat) (words : list string) (st : LoopState) : option LoopState :=
  if (ls_i st <? List.length words)%nat then
    match fuel with
    | O => None
    | S fuel' => whileLoop fuel' words (loopBody words st)
    end
  else Some st.

Definition processTextWithPunctuationFuel (fuel : nat) (text : string) : option string :=
  if String.eqb text "" || String.eqb (trim text) "" then Some ""
  else option_map ls_result (whileLoop fuel (wordsOf text) (mkLoop 0 "")).

(** As for the later revision, one unit of fuel per word suffices
    ([rev1_fuel]), so the fall-back is never taken. *)
Definition processTextWithPunctuation (text : string) : string :=
  match processTextWithPunctuationFuel (List.length (wordsOf text)) text with
  | Some result => result
  | None => ""
  end.

Definition updatePreview (w : World) (text : string) : World :=
  match previewContainer (state w) with
  | Some _ =>
      let shown := processTextWithPunctuation text in
      emit (setPreviewContainer w (Some shown)) (PreviewText shown)
  | None => w
  end.

(** [state.recognition.onresult] of the first revision. *)
Definition onresult (w : World) (event : SpeechRecognitionEvent) : World :=
  let '(finalText, interimTranscript) :=
    collectResults (List.length (results event) - resultIndex event) (results event)
      (resultIndex event) (finalTranscript (state w)) "" in
  let w := setFinalTranscript w finalText in
  let w := if String.eqb interimTranscript "" then w
           else updatePreview w interimTranscript in
  if String.eqb (finalTranscript (state w)) "" then w
  else
    let processedText := processTextWithPunctuation (finalTranscript (state w)) in
    let startsWithPunctuation := startsPunctuation processedText in
    let currentContent := getContent (editor w) in
    let needsSpace :=
      (0 <? String.length currentContent)%nat
      && negb (endsWith currentContent " ")
      && negb (endsWith currentContent newline)
      && negb startsWithPunctuation in
    let textToInsert := (if needsSpace then " " else "") ++ processedText in
    let w := emit (mkWorld (state w) (insertContent (editor w) textToInsert)
                           (speechApi w) (trace w))
                  (InsertContent textToInsert) in
    let w := setFinalTranscript w "" in
    updatePreview w "".

End Rev1.

(** ** The revision with module-level state *)

Module Rev3.

(** The three module globals.  [recognition] is [null] or the recogniser,
    whose handlers close over the editor that was passed to
    [initializeRecognition]. *)
Record Globals : Type := mkGlobals {
  recognition : option EditorId;
  listening : bool;
  finalTranscript : string
}.

Inductive Effect : Type :=
| RecognitionCreated (editor : EditorId)
| RecognitionStart
| RecognitionStop
| InsertContent (editor : EditorId) (text : string)
| ConsoleError
| ConsoleWarn.

Record World : Type := mkWorld {
  globals : Globals;
  contents : EditorId -> string;
  speechApi : bool;
  trace : list Effect
}.

Definition emit (w : World) (e : Effect) : World :=
  mkWorld (globals w) (contents w) (speechApi w) (trace w ++ [e])%list.

Definition setGlobals (w : World) (g : Globals) : World :=
  mkWorld g (contents w) (speechApi w) (trace w).

Definition insertContent (w : World) (editor : EditorId) (text : string) : World :=
  emit (mkWorld (globals w)
                (fun e => if Nat.eqb e editor then contents w e ++ text else contents w e)
                (speechApi w) (trace w))
       (InsertContent editor text).

Definition initializeRecognition (editor : EditorId) (w : World) : World :=
  if speechApi w then
    emit (setGlobals w (mkGlobals (Some editor) (listening (globals w))
                                  (finalTranscript (globals w))))
         (RecognitionCreated editor)
  else emit w ConsoleWarn.

(** [recognition.onresult], for the recogniser created for [editor]. *)
Definition onresult (editor : EditorId) (w : World) (event : SpeechRecognitionEvent) : World :=
  let '(finalText, _) :=
    collectResults (List.length (results event) - resultIndex event) (results event)
      (resultIndex event) (finalTranscript (globals w)) "" in
  let w := setGlobals w (mkGlobals (recognition (globals w)) (listening (globals w)) finalText) in
  if String.eqb finalText "" then w
  else
    let w := insertContent w editor finalText in
    setGlobals w (mkGlobals (recognition (globals w)) (listening (globals w)) "").

Definition onerror (w : World) : World :=
  let w := emit w ConsoleError in
  setGlobals w (mkGlobals (recognition (globals w)) false (finalTranscript (globals w))).

Definition onend (w : World) : World :=
  setGlobals w (mkGlobals (recognition (globals w)) false (finalTranscript (globals w))).

(** The toolbar action of [editor]; [None] when an exception leaves the
    handler. *)
Definition handleAction (startThrows : bool) (editor : EditorId) (w : World) : option World :=
  if negb (listening (globals w)) then
    let w := match recognition (globals w) with
             | None => initializeRecognition editor w
             | Some _ => w
             end in
    match recognition (globals w) with
    | None => Some (emit w ConsoleError)
    | Some _ =>
        if startThrows then Some (emit w ConsoleError)
        else
          let w := emit w RecognitionStart in
          Some (setGlobals w (mkGlobals (recognition (globals w)) true
                                        (finalTranscript (globals w))))
    end
  else
    match recognition (globals w) with
    | Some _ =>
        let w := emit w RecognitionStop in
        Some (setGlobals w (mkGlobals (recognition (globals w)) false
                                      (finalTranscript (globals w))))
    | None => None
    end.

Inductive Event : Type :=
| Action (startThrows : bool) (editor : EditorId)
| OnResult (event : SpeechRecognitionEvent)
| OnError
| OnEnd.

(** Recogniser events can only come from a recogniser that exists. *)
Definition step (w : World) (e : Event) : option World :=
  match e with
  | Action startThrows editor => handleAction startThrows editor w
  | OnResult event =>
      match recognition (globals w) with
      | Some editor => Some (onresult editor w event)
      | None => None
      end
  | OnError =>
      match recognition (globals w) with
      | Some _ => Some (onerror w)
      | None => None
      end
  | OnEnd =>
      match recognition (globals w) with
      | Some _ => Some (onend w)
      | None => None
      end
  end.

Definition initialWorld (api : bool) (documents : EditorId -> string) : World :=
  mkWorld (mkGlobals None false "") documents api [].

Inductive reachable : World -> Prop :=
| reachable_initial : forall api documents, reachable (initialWorld api documents)
| reachable_step : forall w e w', reachable w -> step w e = Some w' -> reachable w'.

End Rev3.

(** The same session as [listeningWorld] with nothing said yet and the
    speech API missing. *)
Definition unsupportedWorld : World :=
  mkWorld newEditorState (mkEditor "Hi.") false [].

(** A session of the global-state revision started from editor 1. *)
Definition rev3Started : Rev3.World :=
  Rev3.mkWorld (Rev3.mkGlobals (Some 1) true "") (fun _ => "") true
               [Rev3.RecognitionCreated 1; Rev3.RecognitionStart].


(** * Properties *)

(** ** Strings *)

Lemma append_empty_r (s : string) : s ++ "" = s.
Proof. induction s as [|c r IH]; simpl; [reflexivity | now rewrite IH]. Qed.

Lemma append_assoc (s t u : string) : (s ++ t) ++ u = s ++ (t ++ u).
Proof. induction s as [|c r IH]; simpl; [reflexivity | now rewrite IH]. Qed.

Lemma length_zero_empty (s : string) : (String.length s =? 0)%nat = String.eqb s "".
Proof. destruct s; reflexivity. Qed.

Lemma lastChar_cons (a : ascii) (r : string) :
  lastChar (String a r) = match lastChar r with Some c => Some c | None => Some a end.
Proof.
  revert a; induction r as [|b r IH]; intros a; [reflexivity|].
  change (lastChar (String a (String b r))) with (lastChar (String b r)).
  rewrite IH. destruct (lastChar r); reflexivity.
Qed.

Lemma lastChar_none (s : string) : lastChar s = None -> s = "".
Proof.
  destruct s as [|a r]; [reflexivity|].
  rewrite lastChar_cons. destruct (lastChar r); discriminate.
Qed.

Lemma endsWith_char (s : string) (c : ascii) :
  endsWith s (String c "") =
  match lastChar s with Some c' => Ascii.eqb c' c | None => false end.
Proof.
  unfold endsWith. induction s as [|a r IH]; [reflexivity|].
  destruct r as [|b r'].
  - simpl. destruct (Ascii.eqb_spec a c); reflexivity.
  - change (lastChar (String a (String b r'))) with (lastChar (String b r')).
    rewrite <- IH.
    change (String.length (String a (String b r'))) with (S (String.length (String b r'))).
    change (String.length (String c "")) with 1.
    replace (S (String.length (String b r')) - 1) with (S (String.length r')) by (simpl; lia).
    replace (String.length (String b r') - 1) with (String.length r') by (simpl; lia).
    reflexivity.
Qed.

Lemma allWhite_lastChar (s : string) :
  allWhite s = true ->
  match lastChar s with Some c => isWhiteSpace c = true | None => True end.
Proof.
  induction s as [|a r IH]; simpl allWhite; [intros _; exact I|].
  intros H. apply andb_true_iff in H as [Ha Hr].
  rewrite lastChar_cons. specialize (IH Hr).
  destruct (lastChar r); assumption.
Qed.

Lemma trimEnd_lastChar (s : string) :
  match lastChar (trimEnd s) with Some c => isWhiteSpace c = false | None => True end.
Proof.
  induction s as [|a r IH]; simpl trimEnd; [exact I|].
  destruct (isWhiteSpace a && allWhite r) eqn:E; [exact I|].
  rewrite lastChar_cons.
  destruct (lastChar (trimEnd r)) as [c|] eqn:L; [assumption|].
  apply lastChar_none in L.
  destruct (isWhiteSpace a) eqn:Ea; [|reflexivity].
  simpl in E.
  assert (allWhite r = true) as Hr.
  { clear -L. induction r as [|b r IH]; [reflexivity|].
    cbn [trimEnd] in L. cbn [allWhite].
    destruct (isWhiteSpace b && allWhite r) eqn:E'; [reflexivity | discriminate]. }
  congruence.
Qed.




Lemma capitalizeWord_head (w : string) :
  capitalizeWord w =
  match w with
  | EmptyString => EmptyString
  | String c r => String (toUpperChar c) r
  end.
Proof. destruct w as [|c r]; reflexivity. Qed.





(** ** Commit-time adjustment *)



(** C10. With an empty document the committed text is the normalised
    pending text itself, whatever it starts with: no space, no change of
    case; the commit inserts exactly that text. *)
Theorem prepareTextForInsertion_empty_document (e : Editor) (t : string) :
  getContent e = "" ->
  prepareTextForInsertion e t = t
  /\ (forall w : World,
        editor w = e -> finalTranscript (state w) <> "" ->
        processTextWithPunctuation (finalTranscript (state w)) = t ->
        In (InsertContent t) (trace (handleFinalTranscript w))
        /\ content (editor (handleFinalTranscript w)) = t).
Proof.
  intros He.
  assert (prepareTextForInsertion e t = t) as Hp.
  { unfold prepareTextForInsertion, shouldCapitalizeText, needsSpaceBefore.
    rewrite He. reflexivity. }
  split; [exact Hp|].
  intros w Hw Hne Ht.
  unfold handleFinalTranscript.
  destruct (String.eqb_spec (finalTranscript (state w)) ""); [contradiction|].
  rewrite Ht, Hw, Hp.
  unfold updatePreview, setFinalTranscript, setState, emit, insertContent. simpl.
  unfold getContent in He. rewrite He.
  destruct (previewContainer (state w)); simpl; split; try reflexivity;
    apply in_or_app; [left; apply in_or_app|]; right; left; reflexivity.
Qed.

Lemma prepareTextForInsertion_empty_document_witness :
  prepareTextForInsertion (mkEditor "") ", there" = ", there".
Proof.
  exact (proj1 (prepareTextForInsertion_empty_document (mkEditor "") ", there" eq_refl)).
Defined.

(** ** The phrase resolver *)

Lemma assoc_In {V : Type} (key : string) (entries : list (string * V)) (v : V) :
  assoc key entries = Some v -> In v (map snd entries).
Proof.
  induction entries as [|[k v'] rest IH]; simpl; [discriminate|].
  destruct (String.eqb k key); [intros H; inversion H; now left | auto].
Qed.

Lemma matchPunctuationFrom_bounds (k : nat) (words : list string) (i : nat)
      (symbol : JsValue) (n : nat) :
  matchPunctuationFrom k words i = Some (symbol, n) ->
  1 <= n <= k /\ i + n <= List.length words.
Proof.
  induction k as [|k IH]; simpl; [discriminate|].
  destruct (Nat.leb_spec (i + S k) (List.length words)) as [Hle|Hgt].
  - destruct (getPunctuationSymbol _).
    + intros H; inversion H; subst. lia.
    + intros H. apply IH in H. lia.
  - intros H. apply IH in H. lia.
Qed.

(** C3. The resolver reports a match for the single word "constructor",
    which is no entry of the punctuation table, where the resolver of the
    specification finds nothing: the table is a plain object and the
    property read reaches [Object.prototype.constructor].  The normaliser
    then writes the text of that function into its output. *)
Theorem matchPunctuation_inherited_member :
  Spec.resolve ["constructor"] 0 = None
  /\ matchPunctuation ["constructor"] 0 = Some (JsNativeFunction "Object", 1)
  /\ getPunctuationSymbol "Constructor" = Some (JsNativeFunction "Object")
  /\ processTextWithPunctuation "constructor" = "function Object() { [native code] } ".
Proof. repeat split; reflexivity. Qed.

(** Apart from the inherited members the lookup is the one of the table,
    and the two-word phrase "semi colon" resolves as one unit. *)
Lemma getPunctuationSymbol_own (phrase : string) :
  assoc (trim (toLowerCase phrase)) objectPrototype = None ->
  getPunctuationSymbol phrase =
  option_map JsStr (assoc (trim (toLowerCase phrase)) punctuationMap).
Proof.
  intros Hinh. unfold getPunctuationSymbol, getProperty.
  destruct (assoc _ punctuationMap) as [s|] eqn:Eown.
  - apply assoc_In in Eown.
    assert (forallb (fun s => truthy (JsStr s)) (map snd punctuationMap) = true) as Hall
      by reflexivity.
    rewrite forallb_forall in Hall. now rewrite (Hall s Eown).
  - now rewrite Hinh.
Qed.

Lemma slice_window (words : list string) (startIndex len : nat) :
  slice words startIndex (startIndex + len) = Spec.window words startIndex len.
Proof. unfold slice, Spec.window. now rewrite Nat.add_comm, Nat.add_sub. Qed.

Lemma matchPunctuationFrom_tryWindow (words : list string) (startIndex len : nat) :
  Spec.inheritedWindow words startIndex (S len) = false ->
  matchPunctuationFrom (S len) words startIndex =
  match Spec.tryWindow words startIndex (S len) with
  | Some (symbol, n) => Some (JsStr symbol, n)
  | None => matchPunctuationFrom len words startIndex
  end.
Proof.
  unfold Spec.inheritedWindow, Spec.tryWindow, Spec.lookupTable. intros Hinh.
  cbn [matchPunctuationFrom].
  destruct (startIndex + S len <=? List.length words)%nat; [|reflexivity].
  rewrite slice_window, getPunctuationSymbol_own.
  - destruct (assoc _ punctuationMap); reflexivity.
  - destruct (assoc _ objectPrototype); [discriminate | reflexivity].
Qed.

(** Where no window names an inherited member, the resolver is the one the
    specification describes. *)
Lemma matchPunctuation_resolve (words : list string) (startIndex : nat) :
  Spec.inheritedWindow words startIndex 3 = false ->
  Spec.inheritedWindow words startIndex 2 = false ->
  Spec.inheritedWindow words startIndex 1 = false ->
  matchPunctuation words startIndex =
  match Spec.resolve words startIndex with
  | Some (symbol, n) => Some (JsStr symbol, n)
  | None => None
  end.
Proof.
  intros H3 H2 H1. unfold matchPunctuation, Spec.resolve.
  rewrite (matchPunctuationFrom_tryWindow _ _ 2 H3).
  destruct (Spec.tryWindow words startIndex 3) as [[s n]|]; [reflexivity|].
  rewrite (matchPunctuationFrom_tryWindow _ _ 1 H2).
  destruct (Spec.tryWindow words startIndex 2) as [[s n]|]; [reflexivity|].
  rewrite (matchPunctuationFrom_tryWindow _ _ 0 H1).
  destruct (Spec.tryWindow words startIndex 1) as [[s n]|]; reflexivity.
Qed.

Lemma matchPunctuation_semi_colon :
  matchPunctuation ["semi"; "colon"; "test"] 0 = Some (JsStr ";", 2)
  /\ processTextWithPunctuation "semi colon test" = "; test".
Proof. split; reflexivity. Qed.

(** ** The scanning loop *)

Lemma loopBody_advance (words : list string) (st : LoopState) :
  ls_i st < List.length words ->
  ls_i st < ls_i (loopBody words st) <= List.length words.
Proof.
  intros Hlt. unfold loopBody.
  destruct (matchPunctuation words (ls_i st)) as [[symbol n]|] eqn:E; simpl.
  - apply matchPunctuationFrom_bounds in E. lia.
  - lia.
Qed.

Lemma whileLoop_exits (fuel : nat) (words : list string) (st : LoopState) :
  List.length words - ls_i st <= fuel ->
  exists st', whileLoop fuel words st = Some st' /\ List.length words <= ls_i st'.
Proof.
  revert st. induction fuel as [|fuel IH]; intros st Hfuel; simpl;
    destruct (Nat.ltb_spec (ls_i st) (List.length words)) as [Hlt|Hge];
    try (exists st; split; [reflexivity | lia]); try lia.
  apply IH. pose proof (loopBody_advance words st Hlt). lia.
Qed.

Lemma whileLoop_more_fuel (fuel fuel' : nat) (words : list string) (st st' : LoopState) :
  whileLoop fuel words st = Some st' -> fuel <= fuel' ->
  whileLoop fuel' words st = Some st'.
Proof.
  revert fuel' st. induction fuel as [|fuel IH]; intros fuel' st; simpl;
    destruct (ls_i st <? List.length words)%nat eqn:E;
    intros H Hle; try discriminate.
  - destruct fuel'; simpl; rewrite E; assumption.
  - destruct fuel' as [|fuel']; [lia|]. simpl. rewrite E. apply IH; [assumption | lia].
  - destruct fuel'; simpl; rewrite E; assumption.
Qed.

Lemma processTextWithPunctuation_fuel (fuel : nat) (text : string) :
  List.length (wordsOf text) <= fuel ->
  processTextWithPunctuationFuel fuel text = Some (processTextWithPunctuation text).
Proof.
  intros Hfuel. unfold processTextWithPunctuation, processTextWithPunctuationFuel.
  destruct (String.eqb text "" || String.eqb (trim text) ""); [reflexivity|].
  destruct (whileLoop_exits (List.length (wordsOf text)) (wordsOf text) initialLoop)
    as [st' [Hrun _]]; [simpl; lia|].
  rewrite Hrun, (whileLoop_more_fuel _ fuel _ _ _ Hrun Hfuel). reflexivity.
Qed.

(** C9. The normaliser is total: a resolved phrase consumes one, two or
    three words and never more than remain, every iteration moves the cursor
    strictly forward without passing the end of the word list, and so one
    unit of fuel per word lets the loop reach its exit and return. *)
Theorem processTextWithPunctuation_terminates :
  (forall (words : list string) (i : nat) (symbol : JsValue) (n : nat),
     matchPunctuation words i = Some (symbol, n) ->
     1 <= n <= 3 /\ i + n <= List.length words)
  /\ (forall (words : list string) (st : LoopState),
        ls_i st < List.length words ->
        ls_i st < ls_i (loopBody words st) <= List.length words)
  /\ (forall (words : list string) (st : LoopState) (fuel : nat),
        List.length words - ls_i st <= fuel ->
        exists st', whileLoop fuel words st = Some st' /\ List.length words <= ls_i st')
  /\ (forall (text : string) (fuel : nat),
        List.length (wordsOf text) <= fuel ->
        processTextWithPunctuationFuel fuel text = Some (processTextWithPunctuation text)).
Proof.
  split; [|split; [|split]].
  - intros words i symbol n H. now apply matchPunctuationFrom_bounds in H.
  - apply loopBody_advance.
  - intros words st fuel. apply whileLoop_exits.
  - intros text fuel. apply processTextWithPunctuation_fuel.
Qed.

Lemma processTextWithPunctuation_terminates_witness :
  processTextWithPunctuationFuel 6 "well full stop new paragraph done"
  = Some (processTextWithPunctuation "well full stop new paragraph done")
  /\ (1 <= 2 <= 3 /\ 1 + 2 <= List.length ["well"; "full"; "stop"; "new"; "paragraph"; "done"]).
Proof.
  destruct processTextWithPunctuation_terminates as [Hmatch [_ [_ Hfuel]]].
  split.
  - apply Hfuel. vm_compute. lia.
  - apply (Hmatch _ 1 (JsStr ".") 2). reflexivity.
Defined.

Lemma allWhite_trim (text : string) : allWhite text = true -> trim text = "".
Proof.
  unfold trim. induction text as [|c r IH]; simpl; [reflexivity|].
  intros H. apply andb_true_iff in H as [Hc Hr]. rewrite Hc. now apply IH.
Qed.

Lemma isLineBreak_text (symbol : JsValue) :
  isLineBreak symbol =
  (String.eqb (toJsString symbol) newline || String.eqb (toJsString symbol) blankLine).
Proof. destruct symbol; reflexivity. Qed.

(** C4. A resolved symbol is appended directly to the output so far,
    followed by one space unless it is the newline or the blank line; empty
    and white-space-only input normalise to the empty string; and
    "hello comma world full stop" gives "hello, world. ". *)
Theorem processTextWithPunctuation_symbols :
  (forall (words : list string) (st : LoopState) (symbol : JsValue) (n : nat),
     matchPunctuation words (ls_i st) = Some (symbol, n) ->
     ls_result (loopBody words st) =
     ls_result st ++ toJsString symbol ++
     (if String.eqb (toJsString symbol) newline || String.eqb (toJsString symbol) blankLine
      then "" else " "))
  /\ (forall text : string, allWhite text = true -> processTextWithPunctuation text = "")
  /\ processTextWithPunctuation "" = ""
  /\ processTextWithPunctuation "   " = ""
  /\ processTextWithPunctuation "hello comma world full stop" = "hello, world. ".
Proof.
  split; [|split; [|repeat split; reflexivity]].
  - intros words st symbol n H. unfold loopBody. rewrite H. simpl.
    rewrite <- isLineBreak_text.
    destruct (isLineBreak symbol); [now rewrite append_empty_r | apply append_assoc].
  - intros text H. unfold processTextWithPunctuation, processTextWithPunctuationFuel.
    rewrite (allWhite_trim text H). simpl. now rewrite orb_true_r.
Qed.

Lemma processTextWithPunctuation_symbols_witness :
  ls_result (loopBody ["hello"; "comma"] (mkLoop 1 "hello" false)) = "hello" ++ "," ++ " "
  /\ processTextWithPunctuation (String "009" (String LF " ")) = "".
Proof.
  destruct processTextWithPunctuation_symbols as [Hsym [Hblank _]].
  split.
  - apply (Hsym ["hello"; "comma"] (mkLoop 1 "hello" false) (JsStr ",") 1). reflexivity.
  - apply Hblank. reflexivity.
Defined.





(** ** Spacing of the output *)

Lemma wellSpaced_app (s t : string) :
  wellSpaced (s ++ t) =
  wellSpaced s && wellSpaced t && negb (endsGap s && startsSpace t).
Proof.
  induction s as [|a r IH].
  - simpl. now rewrite andb_true_r.
  - destruct r as [|b r'].
    + cbn [append]. destruct t as [|c t'].
      * unfold endsGap. simpl. now rewrite andb_false_r.
      * change (wellSpaced (String a (String c t')))
          with (negb (isGap a && Ascii.eqb c SP) && wellSpaced (String c t')).
        unfold endsGap. cbn [lastChar startsSpace].
        change (wellSpaced (String a "")) with true.
        generalize (wellSpaced (String c t')). intros w.
        destruct (isGap a), (Ascii.eqb c SP), w; reflexivity.
    + change (wellSpaced (String a (String b r') ++ t))
        with (negb (isGap a && Ascii.eqb b SP) && wellSpaced (String b r' ++ t)).
      rewrite IH.
      change (endsGap (String a (String b r'))) with (endsGap (String b r')).
      change (wellSpaced (String a (String b r')))
        with (negb (isGap a && Ascii.eqb b SP) && wellSpaced (String b r')).
      now rewrite !andb_assoc.
Qed.

Lemma lastChar_app (s t : string) :
  lastChar (s ++ t) = match lastChar t with Some c => Some c | None => lastChar s end.
Proof.
  induction s as [|a r IH]; simpl append.
  - destruct (lastChar t); reflexivity.
  - rewrite !lastChar_cons, IH. destruct (lastChar t), (lastChar r); reflexivity.
Qed.

Lemma spacing_endsGap (r : string) :
  (endsWith r newline || endsWith r " ") = endsGap r.
Proof.
  unfold newline, endsGap. rewrite !endsWith_char.
  destruct (lastChar r); [apply orb_comm | reflexivity].
Qed.

Lemma getSpacingBefore_cases (r : string) :
  getSpacingBefore r = if String.eqb r "" || endsGap r then "" else " ".
Proof.
  unfold getSpacingBefore. rewrite length_zero_empty, spacing_endsGap.
  destruct (String.eqb r ""); reflexivity.
Qed.

Lemma isGap_white (c : ascii) : isGap c = true -> isWhiteSpace c = true.
Proof.
  unfold isGap. intros H. apply orb_true_iff in H as [H|H];
    apply Ascii.eqb_eq in H; subst; reflexivity.
Qed.

Lemma noWhite_facts (w : string) :
  noWhite w = true ->
  wellSpaced w = true /\ startsSpace w = false /\ endsGap w = false
  /\ match lastChar w with Some c => isWhiteSpace c = false | None => True end.
Proof.
  induction w as [|a r IH]; [intros _; repeat split|].
  cbn [noWhite]. intros H. apply andb_true_iff in H as [Ha Hr].
  apply negb_true_iff in Ha.
  destruct (IH Hr) as [Hws [Hst [Heg Hl]]].
  assert (isGap a = false) as Hga.
  { destruct (isGap a) eqn:E; [|reflexivity]. apply isGap_white in E. congruence. }
  repeat split.
  - cbn [wellSpaced]. rewrite Hws, Hga. destruct r; reflexivity.
  - simpl. destruct (Ascii.eqb_spec a SP) as [->|]; [discriminate Ha | reflexivity].
  - unfold endsGap in *. rewrite lastChar_cons. destruct (lastChar r); assumption.
  - rewrite lastChar_cons. destruct (lastChar r); assumption.
Qed.

Lemma toUpperChar_white (c : ascii) : isWhiteSpace (toUpperChar c) = isWhiteSpace c.
Proof. destruct c as [[] [] [] [] [] [] [] []]; reflexivity. Qed.

Lemma plainWord_capitalize (w : string) :
  plainWord w = true -> plainWord (capitalizeWord w) = true.
Proof.
  rewrite capitalizeWord_head. destruct w as [|c r]; [discriminate|].
  unfold plainWord. cbn [noWhite String.eqb negb andb].
  now rewrite toUpperChar_white.
Qed.

Lemma splitWhite_noWhite (s : string) : Forall (fun w => noWhite w = true) (splitWhite s).
Proof.
  induction s as [|c r IH]; cbn [splitWhite]; [repeat constructor|].
  destruct (isWhiteSpace c) eqn:Ec.
  - destruct (startsWithWhite r); [assumption | constructor; [reflexivity | assumption]].
  - destruct (splitWhite r) as [|w ws].
    + repeat constructor. simpl. now rewrite Ec.
    + inversion IH; subst. constructor; [|assumption]. simpl. now rewrite Ec.
Qed.

Lemma splitWhite_pieces (s : string) :
  s <> "" ->
  match lastChar s with Some c => isWhiteSpace c = false | None => True end ->
  match splitWhite s with
  | [] => False
  | w :: ws => Forall (fun w' => w' <> "") ws /\ (startsWithWhite s = false -> w <> "")
  end.
Proof.
  induction s as [|c r IH]; [contradiction|].
  intros _. rewrite lastChar_cons. cbn [splitWhite].
  destruct r as [|b r'].
  - simpl. intros Hc. rewrite Hc. split; [constructor | discriminate].
  - remember (String b r') as r eqn:Er.
    assert (r <> "") as Hne by (subst; discriminate).
    destruct (lastChar r) as [l|] eqn:L;
      [|apply lastChar_none in L; contradiction].
    intros Hl. specialize (IH Hne Hl).
    destruct (isWhiteSpace c) eqn:Ec.
    + destruct (startsWithWhite r) eqn:Es.
      * destruct (splitWhite r) as [|w ws]; [contradiction|].
        split; [apply IH | simpl; rewrite Ec; discriminate].
      * destruct (splitWhite r) as [|w ws]; [contradiction|].
        destruct IH as [Hws Hw].
        split; [constructor; auto | simpl; rewrite Ec; discriminate].
    + destruct (splitWhite r) as [|w ws]; [contradiction|].
      split; [apply IH | discriminate].
Qed.

Lemma trimStart_allWhite (s : string) : trimStart s = "" -> allWhite s = true.
Proof.
  induction s as [|c r IH]; [reflexivity|]. simpl.
  destruct (isWhiteSpace c); [assumption | discriminate].
Qed.

Lemma trimStart_head (s : string) : startsWithWhite (trimStart s) = false.
Proof.
  induction s as [|c r IH]; [reflexivity|]. simpl.
  destruct (isWhiteSpace c) eqn:E; [assumption | simpl; assumption].
Qed.

Lemma trim_nonblank (text : string) :
  allWhite text = false ->
  trim text <> "" /\ startsWithWhite (trim text) = false.
Proof.
  intros Hw. unfold trim.
  pose proof (trimStart_head text) as Hh.
  destruct (trimStart text) as [|c r] eqn:E.
  - apply trimStart_allWhite in E. congruence.
  - simpl in Hh. simpl. rewrite Hh. simpl. split; [discriminate | assumption].
Qed.

Lemma wordsOf_plain (text : string) :
  allWhite text = false -> Forall (fun w => plainWord w = true) (wordsOf text).
Proof.
  intros Hw. unfold wordsOf.
  destruct (trim_nonblank text Hw) as [Hne Hhead].
  pose proof (splitWhite_pieces (trim text) Hne (trimEnd_lastChar (trimStart text))) as Hp.
  pose proof (splitWhite_noWhite (trim text)) as Hn.
  destruct (splitWhite (trim text)) as [|w ws]; [contradiction|].
  destruct Hp as [Hws Hw0]. specialize (Hw0 Hhead).
  assert (Forall (fun w' => w' <> "") (w :: ws)) as Hall by (constructor; assumption).
  clear -Hall Hn. rewrite Forall_forall in *. intros x Hx.
  unfold plainWord. rewrite (Hn x Hx), andb_true_r.
  destruct (String.eqb_spec x ""); [exfalso; now apply (Hall x Hx) | reflexivity].
Qed.

Lemma getPunctuationSymbol_headed (phrase : string) (v : JsValue) :
  getPunctuationSymbol phrase = Some v -> headedSymbol v = true.
Proof.
  unfold getPunctuationSymbol, getProperty.
  destruct (assoc _ punctuationMap) as [s|] eqn:Eown.
  - destruct (truthy (JsStr s)); [|discriminate].
    intros H; inversion H; subst v. apply assoc_In in Eown.
    assert (forallb (fun s => headedSymbol (JsStr s)) (map snd punctuationMap) = true) as Hall
      by reflexivity.
    rewrite forallb_forall in Hall. now apply Hall.
  - destruct (assoc _ objectPrototype) as [v'|] eqn:Einh; [|discriminate].
    destruct (truthy v'); [|discriminate].
    intros H; inversion H; subst v'. apply assoc_In in Einh.
    assert (forallb headedSymbol (map snd objectPrototype) = true) as Hall by reflexivity.
    rewrite forallb_forall in Hall. now apply Hall.
Qed.

Lemma matchPunctuationFrom_headed (k : nat) (words : list string) (i : nat)
      (symbol : JsValue) (n : nat) :
  matchPunctuationFrom k words i = Some (symbol, n) -> headedSymbol symbol = true.
Proof.
  induction k as [|k IH]; simpl; [discriminate|].
  destruct (i + S k <=? List.length words)%nat; [|assumption].
  destruct (getPunctuationSymbol _) as [v|] eqn:E; [|assumption].
  intros H; inversion H; subst. now apply getPunctuationSymbol_headed in E.
Qed.

Lemma resolve_table (words : list string) (i : nat) (s : string) (n : nat) :
  Spec.resolve words i = Some (s, n) -> In s (map snd punctuationMap).
Proof.
  assert (forall len s' n', Spec.tryWindow words i len = Some (s', n') ->
                            In s' (map snd punctuationMap)) as Htry.
  { intros len s' n'. unfold Spec.tryWindow, Spec.lookupTable.
    destruct (i + len <=? List.length words)%nat; [|discriminate].
    destruct (assoc _ punctuationMap) as [t|] eqn:E; [|discriminate].
    intros H; inversion H; subst. now apply assoc_In in E. }
  unfold Spec.resolve.
  destruct (Spec.tryWindow words i 3) as [[s3 n3]|] eqn:E3;
    [intros H; inversion H; subst; now apply (Htry 3 s n)|].
  destruct (Spec.tryWindow words i 2) as [[s2 n2]|] eqn:E2;
    [intros H; inversion H; subst; now apply (Htry 2 s n)|].
  apply (Htry 1 s n).
Qed.

(** Where every phrase found is the table's own, the symbols resolved are
    the table's strings. *)
Lemma matchPunctuation_own_spaced (words : list string) (i : nat) (symbol : JsValue) (n : nat) :
  ownPhrasesOnly words = true -> i < List.length words ->
  matchPunctuation words i = Some (symbol, n) -> spacedSymbol symbol = true.
Proof.
  intros Hown Hi Hm. unfold ownPhrasesOnly in Hown. rewrite forallb_forall in Hown.
  assert (In i (seq 0 (List.length words))) as Hin by (apply in_seq; lia).
  apply Hown in Hin. apply negb_true_iff in Hin.
  apply orb_false_iff in Hin as [Hin H3]. apply orb_false_iff in Hin as [H1 H2].
  rewrite (matchPunctuation_resolve words i H3 H2 H1) in Hm.
  destruct (Spec.resolve words i) as [[s k]|] eqn:E; [|discriminate].
  inversion Hm; subst. apply resolve_table in E.
  assert (forallb (fun s => spacedSymbol (JsStr s)) (map snd punctuationMap) = true) as Hall
    by reflexivity.
  rewrite forallb_forall in Hall. now apply Hall.
Qed.

Lemma endsGap_app (s t : string) : t <> "" -> endsGap (s ++ t) = endsGap t.
Proof.
  intros Hne. unfold endsGap. rewrite lastChar_app.
  destruct (lastChar t) eqn:L; [reflexivity|].
  apply lastChar_none in L. contradiction.
Qed.

Lemma plainWord_at (words : list string) (i : nat) :
  Forall (fun w => plainWord w = true) words -> i < List.length words ->
  plainWord (nth i words "undefined") = true.
Proof.
  intros Hall Hi. rewrite Forall_forall in Hall. apply Hall. now apply nth_In.
Qed.

Lemma wellSpaced_spacing (r : string) :
  wellSpaced r = true -> wellSpaced (r ++ getSpacingBefore r) = true.
Proof.
  intros Hr. rewrite getSpacingBefore_cases.
  destruct (String.eqb r "" || endsGap r) eqn:E.
  - now rewrite append_empty_r.
  - apply orb_false_iff in E as [_ Eg]. rewrite wellSpaced_app, Hr, Eg. reflexivity.
Qed.

Lemma loopBody_wellSpaced (words : list string) (st : LoopState) :
  ownPhrasesOnly words = true ->
  Forall (fun w => plainWord w = true) words ->
  ls_i st < List.length words ->
  wellSpaced (ls_result st) = true ->
  wellSpaced (ls_result (loopBody words st)) = true.
Proof.
  intros Hown Hall Hi Hr. unfold loopBody.
  destruct (matchPunctuation words (ls_i st)) as [[symbol n]|] eqn:E; cbn [ls_result].
  - apply (matchPunctuation_own_spaced words _ _ _ Hown Hi) in E. unfold spacedSymbol in E.
    apply andb_true_iff in E as [E Hend].
    apply andb_true_iff in E as [E Hstart].
    apply andb_true_iff in E as [Hne Hws].
    apply negb_true_iff in Hstart.
    assert (wellSpaced (ls_result st ++ toJsString symbol) = true) as Hcat
      by (now rewrite wellSpaced_app, Hr, Hws, Hstart, andb_false_r).
    destruct (isLineBreak symbol); [assumption|].
    simpl in Hend. apply negb_true_iff in Hend.
    rewrite wellSpaced_app, Hcat, endsGap_app, Hend; [reflexivity|].
    intros Hempty. rewrite Hempty in Hne. discriminate.
  - pose proof (plainWord_at words (ls_i st) Hall Hi) as Hw.
    set (word := nth (ls_i st) words "undefined") in *.
    assert (plainWord (if ls_shouldCapitalize st then capitalizeWord word else word) = true)
      as Hw' by (destruct (ls_shouldCapitalize st); [now apply plainWord_capitalize | assumption]).
    unfold plainWord in Hw'. apply andb_true_iff in Hw' as [_ Hnw].
    destruct (noWhite_facts _ Hnw) as [Hws [Hst _]].
    now rewrite wellSpaced_app, (wellSpaced_spacing _ Hr), Hws, Hst, andb_false_r.
Qed.

Lemma whileLoop_invariant (P : LoopState -> Prop) (words : list string) :
  (forall st, ls_i st < List.length words -> P st -> P (loopBody words st)) ->
  forall fuel st st', P st -> whileLoop fuel words st = Some st' -> P st'.
Proof.
  intros Hbody. induction fuel as [|fuel IH]; intros st st' Hst; simpl;
    destruct (Nat.ltb_spec (ls_i st) (List.length words)) as [Hlt|Hge];
    intros H; try discriminate; try (inversion H; subst; assumption).
  apply (IH (loopBody words st)); [now apply Hbody | assumption].
Qed.

Lemma trim_empty_allWhite (text : string) : trim text = "" -> allWhite text = true.
Proof.
  destruct (allWhite text) eqn:E; [reflexivity|].
  intros H. now destruct (trim_nonblank text E).
Qed.

Lemma processTextWithPunctuation_wellSpaced (text : string) :
  ownPhrasesOnly (wordsOf text) = true ->
  wellSpaced (processTextWithPunctuation text) = true.
Proof.
  intros Hown. unfold processTextWithPunctuation, processTextWithPunctuationFuel.
  destruct (String.eqb text "" || String.eqb (trim text) "") eqn:E; [reflexivity|].
  apply orb_false_iff in E as [_ E].
  assert (allWhite text = false) as Hw.
  { destruct (allWhite text) eqn:Ea; [|reflexivity].
    rewrite (allWhite_trim text Ea) in E. discriminate. }
  destruct (whileLoop _ _ _) as [st'|] eqn:Erun; [|reflexivity].
  simpl. revert Erun.
  apply (whileLoop_invariant (fun st => wellSpaced (ls_result st) = true)); [|reflexivity].
  intros st Hi Hr.
  apply loopBody_wellSpaced; [assumption | now apply wordsOf_plain | assumption..].
Qed.






(** ** The session *)

Ltac world w := destruct w as [[rcg lis ft pc] ed api tr].

Lemma handleFinalTranscript_state (w : World) :
  finalTranscript (state (handleFinalTranscript w)) = ""
  /\ listening (state (handleFinalTranscript w)) = listening (state w)
  /\ recognition (state (handleFinalTranscript w)) = recognition (state w)
  /\ (previewContainer (state (handleFinalTranscript w)) = None
      <-> previewContainer (state w) = None).
Proof.
  world w. unfold handleFinalTranscript. cbn [state finalTranscript].
  destruct (String.eqb_spec ft ""); [subst; repeat split; auto|].
  unfold updatePreview. destruct pc; simpl; repeat split; auto; discriminate.
Qed.

Lemma updatePreview_state (w : World) (text : string) :
  finalTranscript (state (updatePreview w text)) = finalTranscript (state w)
  /\ listening (state (updatePreview w text)) = listening (state w)
  /\ recognition (state (updatePreview w text)) = recognition (state w)
  /\ (previewContainer (state (updatePreview w text)) = None
      <-> previewContainer (state w) = None)
  /\ editor (updatePreview w text) = editor w.
Proof.
  world w. unfold updatePreview. destruct pc; simpl; repeat split; auto; discriminate.
Qed.

Lemma handleRecognitionResult_state (w : World) (event : SpeechRecognitionEvent) :
  finalTranscript (state (handleRecognitionResult w event)) = ""
  /\ listening (state (handleRecognitionResult w event)) = listening (state w)
  /\ recognition (state (handleRecognitionResult w event)) = recognition (state w)
  /\ (previewContainer (state (handleRecognitionResult w event)) = None
      <-> previewContainer (state w) = None).
Proof.
  unfold handleRecognitionResult.
  destruct (collectResults _ _ _ _ _) as [finalText interim].
  set (w1 := setFinalTranscript w finalText).
  set (w2 := if String.eqb interim "" then w1 else updatePreview w1 interim).
  destruct (handleFinalTranscript_state w2) as [Hf [Hl [Hr Hp]]].
  assert (listening (state w2) = listening (state w)
          /\ recognition (state w2) = recognition (state w)
          /\ (previewContainer (state w2) = None <-> previewContainer (state w) = None))
    as [Hl2 [Hr2 Hp2]].
  { subst w2. destruct (String.eqb interim "").
    - subst w1. world w. simpl. tauto.
    - destruct (updatePreview_state w1 interim) as [_ [Hl1 [Hr1 [Hp1 _]]]].
      rewrite Hl1, Hr1, Hp1. subst w1. world w. simpl. tauto. }
  rewrite Hl, Hr, Hp, Hl2, Hr2, Hp2. tauto.
Qed.

Lemma step_invariant (w : World) (e : Event) (w' : World) :
  sessionInvariant w -> step w e = Some w' -> sessionInvariant w'.
Proof.
  unfold sessionInvariant. intros [Hft [Hon Hoff]] Hstep.
  destruct e as [startThrows|event| | | |newContent]; simpl in Hstep.
  - world w. simpl in *. subst ft.
    unfold handleAction in Hstep. cbn [state listening recognition] in Hstep.
    destruct lis; simpl in Hstep.
    + destruct (Hon eq_refl) as [-> Hpc].
      inversion Hstep; subst w'. destruct pc; simpl; repeat split; intros; congruence.
    + rewrite (Hoff eq_refl) in *.
      destruct rcg, api, startThrows; simpl in Hstep;
        inversion Hstep; subst w'; simpl; repeat split; intros; congruence.
  - inversion Hstep; subst w'.
    destruct (handleRecognitionResult_state w event) as [Hf [Hl [Hr Hp]]].
    rewrite Hf, Hl, Hr, Hp.
    split; [reflexivity|]. split; [|assumption].
    intros Hlis. destruct (Hon Hlis) as [Hrec Hpc]. split; [assumption|].
    intros Hnone. apply Hpc. now apply Hp.
  - inversion Hstep; subst w'. world w. destruct pc; simpl in *;
      repeat split; intros; congruence.
  - inversion Hstep; subst w'. world w. destruct pc; simpl in *;
      repeat split; intros; congruence.
  - inversion Hstep; subst w'. world w. destruct lis, rcg, pc; simpl in *;
      intuition congruence.
  - inversion Hstep; subst w'. simpl. auto.
Qed.

Lemma reachable_invariant (w : World) : reachable w -> sessionInvariant w.
Proof.
  induction 1 as [api document|w e w' Hw IH Hstep].
  - unfold sessionInvariant. simpl. repeat split; congruence.
  - now apply (step_invariant w e w').
Qed.

Lemma concat_cons (x : string) (xs : list string) :
  String.concat "" (x :: xs) = x ++ String.concat "" xs.
Proof. destruct xs; simpl; [now rewrite append_empty_r | reflexivity]. Qed.

Lemma skipn_nth_error {A : Type} (l : list A) (i : nat) (x : A) :
  nth_error l i = Some x -> skipn i l = x :: skipn (S i) l.
Proof.
  revert i. induction l as [|a l IH]; intros [|i] H; try discriminate.
  - inversion H. reflexivity.
  - simpl in H. apply IH in H. exact H.
Qed.

Lemma collectResults_spec (count : nat) (slots : list SpeechRecognitionResult) (i : nat)
      (pending interim : string) :
  count = List.length slots - i ->
  collectResults count slots i pending interim =
  (pending ++ Spec.finalText (skipn i slots), interim ++ Spec.interimText (skipn i slots)).
Proof.
  revert i pending interim.
  induction count as [|count IH]; intros i pending interim Hcount; simpl.
  - rewrite skipn_all2 by lia. unfold Spec.finalText, Spec.interimText. simpl.
    now rewrite !append_empty_r.
  - destruct (nth_error slots i) as [slot|] eqn:E.
    + rewrite (skipn_nth_error _ _ _ E).
      unfold Spec.finalText, Spec.interimText. cbn [filter].
      destruct (isFinal slot); cbn [negb map]; rewrite IH by lia;
        rewrite concat_cons, !append_assoc; reflexivity.
    + apply nth_error_None in E. lia.
Qed.

(** C6. While the session listens, a result event is handled as follows:
    of the slots from [resultIndex] on, each final one adds its text and one
    space to the pending accumulator and each other one adds its text to the
    interim text, which starts empty at every event; a non-empty interim
    text is normalised and shown in the preview; then the pending text, if
    any, is committed. *)
Theorem handleRecognitionResult_accumulates (w : World) (event : SpeechRecognitionEvent) :
  reachable w -> listening (state w) = true ->
  let pending := finalTranscript (state w) ++ Spec.finalText (Spec.slotsFrom event) in
  let interim := Spec.interimText (Spec.slotsFrom event) in
  collectResults (List.length (results event) - resultIndex event) (results event)
                 (resultIndex event) (finalTranscript (state w)) "" = (pending, interim)
  /\ trace (handleRecognitionResult w event) =
     (trace w
      ++ (if String.eqb interim "" then []
          else [PreviewText (processTextWithPunctuation interim)])
      ++ (if String.eqb pending "" then []
          else [InsertContent
                  (prepareTextForInsertion (editor w) (processTextWithPunctuation pending));
                PreviewText ""]))%list
  /\ handleRecognitionResult w event =
     handleFinalTranscript
       (if String.eqb interim "" then setFinalTranscript w pending
        else updatePreview (setFinalTranscript w pending) interim).
Proof.
  intros Hreach Hlis pending interim.
  destruct (reachable_invariant w Hreach) as [_ [Hon _]].
  destruct (Hon Hlis) as [_ Hpc].
  assert (collectResults (List.length (results event) - resultIndex event) (results event)
            (resultIndex event) (finalTranscript (state w)) "" = (pending, interim)) as Hc
    by (now rewrite collectResults_spec).
  split; [exact Hc|].
  unfold handleRecognitionResult. rewrite Hc. split; [|reflexivity].
  world w. cbn [state finalTranscript previewContainer listening] in *.
  destruct pc as [shown|]; [clear Hpc | contradiction].
  unfold handleFinalTranscript, updatePreview.
  destruct (String.eqb interim ""), (String.eqb pending "") eqn:Ep; simpl;
    rewrite ?Ep; simpl; rewrite <- ?app_assoc; try reflexivity;
    now rewrite ?app_nil_r.
Qed.

Lemma listeningWorld_reachable : reachable listeningWorld.
Proof.
  apply (reachable_step (initialWorld true "Hi.") (Action false)).
  - apply reachable_initial.
  - reflexivity.
Qed.

Lemma stoppedWorld_reachable : reachable stoppedWorld.
Proof.
  apply (reachable_step listeningWorld (Action false)).
  - apply listeningWorld_reachable.
  - reflexivity.
Qed.

Lemma handleRecognitionResult_accumulates_witness :
  collectResults 2 [mkResult "old" true; mkResult "hello comma" true; mkResult "wor" false]
                 1 "" ""
  = ("hello comma ", "wor").
Proof.
  exact (proj1 (handleRecognitionResult_accumulates
                  listeningWorld
                  (mkEvent 1 [mkResult "old" true; mkResult "hello comma" true;
                              mkResult "wor" false])
                  listeningWorld_reachable eq_refl)).
Defined.





(** C8, as the code has it: in a session that was started and then stopped
    a result event is still handled, its final text lands in the document;
    and the toolbar action in that idle session starts listening again. *)
Lemma idle_session_still_processes :
  run (initialWorld true "Hi.") [Action false; Action false] = Some stoppedWorld
  /\ listening (state stoppedWorld) = false
  /\ content (editor (handleRecognitionResult stoppedWorld
                        (mkEvent 0 [mkResult "hello" true]))) = "Hi. Hello"
  /\ (exists w', handleAction false stoppedWorld = Some w' /\ listening (state w') = true).
Proof.
  repeat split. eexists. split; reflexivity.
Qed.

Lemma handleRecognitionResult_editor (w : World) (event : SpeechRecognitionEvent) (b : bool) :
  editor (handleRecognitionResult (setListening w b) event)
  = editor (handleRecognitionResult w event).
Proof.
  unfold handleRecognitionResult. world w.
  cbn [setListening setState state finalTranscript recognition previewContainer
       editor speechApi trace].
  destruct (collectResults _ _ _ ft "") as [pending interim].
  unfold handleFinalTranscript, updatePreview, setFinalTranscript, setState.
  cbn [state finalTranscript recognition previewContainer listening editor speechApi trace].
  destruct (String.eqb interim ""), pc; cbn; destruct (String.eqb pending ""); reflexivity.
Qed.

(** C8, amended. From the listening state the toolbar action, the close
    button of the preview, a recognition error and a recognition end each
    leave the session idle with the preview hidden.  The error, end and
    close handlers do so from every state and are idempotent on the session
    state; the close button changes nothing in an idle session.  The
    toolbar action is a toggle: in an idle session with the speech API at
    hand it starts listening.  The result handler does not read the
    listening flag, so what it commits to the document is the same whether
    the session listens or not. *)
Theorem session_returns_to_idle (w : World) :
  reachable w -> listening (state w) = true ->
  (forall startThrows : bool,
     exists w', handleAction startThrows w = Some w'
                /\ listening (state w') = false /\ previewContainer (state w') = None)
  /\ (listening (state (closeButtonClick w)) = false
      /\ previewContainer (state (closeButtonClick w)) = None)
  /\ (forall w0 : World,
        (listening (state (onerror w0)) = false /\ previewContainer (state (onerror w0)) = None)
        /\ (listening (state (onend w0)) = false /\ previewContainer (state (onend w0)) = None)
        /\ state (onerror (onerror w0)) = state (onerror w0)
        /\ onend (onend w0) = onend w0
        /\ closeButtonClick (closeButtonClick w0) = closeButtonClick w0)
  /\ (forall w0 : World,
        reachable w0 -> listening (state w0) = false -> closeButtonClick w0 = w0)
  /\ (forall w0 : World,
        listening (state w0) = false -> speechApi w0 = true ->
        exists w', handleAction false w0 = Some w' /\ listening (state w') = true)
  /\ (forall (w0 : World) (event : SpeechRecognitionEvent) (b : bool),
        editor (handleRecognitionResult (setListening w0 b) event)
        = editor (handleRecognitionResult w0 event)).
Proof.
  intros Hreach Hlis.
  destruct (reachable_invariant w Hreach) as [_ [Hon _]].
  destruct (Hon Hlis) as [Hrec Hpc].
  split; [|split; [|split; [|split; [|split]]]].
  - intros startThrows. unfold handleAction. rewrite Hlis, Hrec. simpl.
    eexists. split; [reflexivity|].
    world w. destruct pc; simpl; split; reflexivity.
  - world w. simpl in *. subst. destruct pc; simpl; split; reflexivity.
  - intros w0. world w0. destruct pc, lis, rcg; simpl; repeat split; reflexivity.
  - intros w0 Hreach0 Hlis0.
    destruct (reachable_invariant w0 Hreach0) as [_ [_ Hoff]].
    specialize (Hoff Hlis0). world w0. simpl in *. subst. reflexivity.
  - intros w0 Hlis0 Hapi. world w0. simpl in *. subst.
    unfold handleAction. destruct rcg, pc; simpl; eexists; split; reflexivity.
  - intros w0 event b. apply handleRecognitionResult_editor.
Qed.

Lemma session_returns_to_idle_witness :
  exists w', handleAction false listeningWorld = Some w'
             /\ listening (state w') = false /\ previewContainer (state w') = None.
Proof.
  exact (proj1 (session_returns_to_idle listeningWorld listeningWorld_reachable eq_refl)
               false).
Defined.

(** * Further properties of the code *)

(** ** The resolver: longest match and letter case *)

Lemma matchPunctuationFrom_longest (k : nat) (words : list string) (i : nat) :
  match matchPunctuationFrom k words i with
  | Some (symbol, n) =>
      getPunctuationSymbol (join " " (slice words i (i + n))) = Some symbol
      /\ (forall m, n < m <= k -> i + m <= List.length words ->
                    getPunctuationSymbol (join " " (slice words i (i + m))) = None)
  | None =>
      forall m, 1 <= m <= k -> i + m <= List.length words ->
                getPunctuationSymbol (join " " (slice words i (i + m))) = None
  end.
Proof.
  induction k as [|k IH]; cbn [matchPunctuationFrom]; [intros; lia|].
  destruct (Nat.leb_spec (i + S k) (List.length words)) as [Hle|Hgt].
  - destruct (getPunctuationSymbol (join " " (slice words i (i + S k)))) as [v|] eqn:E.
    + split; [exact E | intros; lia].
    + destruct (matchPunctuationFrom k words i) as [[symbol n]|].
      * destruct IH as [Hhit Hlonger]. split; [exact Hhit|].
        intros m Hm Hlen. destruct (Nat.eq_dec m (S k)) as [->|Hne]; [exact E|].
        apply Hlonger; lia.
      * intros m Hm Hlen. destruct (Nat.eq_dec m (S k)) as [->|Hne]; [exact E|].
        apply IH; lia.
  - destruct (matchPunctuationFrom k words i) as [[symbol n]|].
    + destruct IH as [Hhit Hlonger]. split; [exact Hhit|].
      intros m Hm Hlen. apply Hlonger; lia.
    + intros m Hm Hlen. apply IH; lia.
Qed.

(** X1. What [matchPunctuation] returns is a window that does resolve,
    and no longer window of up to three words at that index resolves; when
    it returns nothing, no window of one to three words resolves. *)
Theorem matchPunctuation_longest_match (words : list string) (i : nat) :
  match matchPunctuation words i with
  | Some (symbol, n) =>
      getPunctuationSymbol (join " " (slice words i (i + n))) = Some symbol
      /\ (forall m, n < m <= 3 -> i + m <= List.length words ->
                    getPunctuationSymbol (join " " (slice words i (i + m))) = None)
  | None =>
      forall m, 1 <= m <= 3 -> i + m <= List.length words ->
                getPunctuationSymbol (join " " (slice words i (i + m))) = None
  end.
Proof. apply matchPunctuationFrom_longest. Qed.

Lemma matchPunctuation_longest_match_witness :
  getPunctuationSymbol (join " " (slice ["a"; "new"; "line"; "b"] 1 (1 + 3))) = None.
Proof.
  pose proof (matchPunctuation_longest_match ["a"; "new"; "line"; "b"] 1) as H.
  change (matchPunctuation ["a"; "new"; "line"; "b"] 1) with (Some (JsStr newline, 2)) in H.
  destruct H as [_ Hlonger]. apply Hlonger; simpl; lia.
Defined.

Lemma toLowerCase_app (s t : string) :
  toLowerCase (s ++ t) = toLowerCase s ++ toLowerCase t.
Proof. induction s as [|c r IH]; simpl; [reflexivity | now rewrite IH]. Qed.

Lemma toLowerCase_join (ws : list string) :
  toLowerCase (join " " ws) = join " " (map toLowerCase ws).
Proof.
  induction ws as [|w rest IH]; [reflexivity|].
  destruct rest as [|w' rest']; [reflexivity|].
  change (join " " (w :: w' :: rest')) with (w ++ " " ++ join " " (w' :: rest')).
  change (join " " (map toLowerCase (w :: w' :: rest')))
    with (toLowerCase w ++ " " ++ join " " (map toLowerCase (w' :: rest'))).
  now rewrite !toLowerCase_app, IH.
Qed.

Lemma getPunctuationSymbol_case (p q : string) :
  toLowerCase p = toLowerCase q -> getPunctuationSymbol p = getPunctuationSymbol q.
Proof. unfold getPunctuationSymbol. now intros ->. Qed.

Lemma toLower_toUpper_char (c : ascii) : toLowerChar (toUpperChar c) = toLowerChar c.
Proof. destruct c as [[] [] [] [] [] [] [] []]; reflexivity. Qed.

Lemma toLowerCase_toUpperCase (s : string) : toLowerCase (toUpperCase s) = toLowerCase s.
Proof.
  induction s as [|c r IH]; simpl; [reflexivity|].
  now rewrite toLower_toUpper_char, IH.
Qed.

(** X2. The resolver ignores letter case: word lists that agree after
    lower-casing resolve alike at every index, so a phrase spoken in upper
    case resolves as in lower case. *)
Theorem matchPunctuation_ignores_case (words words' : list string) (i : nat) :
  map toLowerCase words = map toLowerCase words' ->
  matchPunctuation words i = matchPunctuation words' i
  /\ matchPunctuation (map toUpperCase words) i = matchPunctuation words i.
Proof.
  assert (forall ws ws' k, map toLowerCase ws = map toLowerCase ws' ->
            matchPunctuationFrom k ws i = matchPunctuationFrom k ws' i) as Hgen.
  { intros ws ws' k Heq.
    assert (List.length ws = List.length ws') as Hlen
      by (rewrite <- (length_map toLowerCase ws), Heq; apply length_map).
    induction k as [|k IH]; [reflexivity|]. cbn [matchPunctuationFrom].
    rewrite Hlen, IH.
    rewrite (getPunctuationSymbol_case (join " " (slice ws i (i + S k)))
                                       (join " " (slice ws' i (i + S k)))); [reflexivity|].
    unfold slice. now rewrite !toLowerCase_join, <- !firstn_map, <- !skipn_map, Heq. }
  intros Heq. split; [now apply Hgen|].
  apply Hgen. rewrite map_map. apply map_ext. apply toLowerCase_toUpperCase.
Qed.

Lemma matchPunctuation_ignores_case_witness :
  matchPunctuation ["Full"; "STOP"] 0 = matchPunctuation ["full"; "stop"] 0.
Proof.
  exact (proj1 (matchPunctuation_ignores_case ["Full"; "STOP"] ["full"; "stop"] 0 eq_refl)).
Defined.

(** ** The normaliser: white space around the transcript *)

Lemma allWhite_app (s t : string) : allWhite (s ++ t) = allWhite s && allWhite t.
Proof.
  induction s as [|c r IH]; simpl; [reflexivity|]. now rewrite IH, andb_assoc.
Qed.

Lemma trimStart_pad (a s : string) : allWhite a = true -> trimStart (a ++ s) = trimStart s.
Proof.
  induction a as [|c r IH]; simpl; [reflexivity|].
  intros H. apply andb_true_iff in H as [Hc Hr]. rewrite Hc. now apply IH.
Qed.

Lemma trimStart_app_nonblank (t b : string) :
  allWhite t = false -> trimStart (t ++ b) = trimStart t ++ b.
Proof.
  induction t as [|c r IH]; simpl; [discriminate|].
  destruct (isWhiteSpace c); simpl; [assumption | reflexivity].
Qed.

Lemma trimEnd_allWhite (b : string) : allWhite b = true -> trimEnd b = "".
Proof. destruct b as [|c r]; simpl; [reflexivity | now intros ->]. Qed.

Lemma trimEnd_pad (s b : string) : allWhite b = true -> trimEnd (s ++ b) = trimEnd s.
Proof.
  intros Hb. induction s as [|c r IH].
  - simpl. now apply trimEnd_allWhite.
  - cbn [append trimEnd]. now rewrite allWhite_app, Hb, andb_true_r, IH.
Qed.

Lemma trim_pad (a text b : string) :
  allWhite a = true -> allWhite b = true -> trim (a ++ text ++ b) = trim text.
Proof.
  intros Ha Hb. unfold trim. rewrite (trimStart_pad a _ Ha).
  destruct (allWhite text) eqn:Ht.
  - rewrite (trimStart_pad text b Ht).
    fold (trim text). rewrite (allWhite_trim text Ht).
    fold (trim b). now rewrite (allWhite_trim b Hb).
  - now rewrite (trimStart_app_nonblank text b Ht), (trimEnd_pad _ b Hb).
Qed.

Lemma blank_test (x : string) :
  (String.eqb x "" || String.eqb (trim x) "") = String.eqb (trim x) "".
Proof. destruct x; reflexivity. Qed.

(** X3. White space in front of and behind the transcript does not
    change the normaliser's result; in particular the space the result
    handler appends to every final transcript is harmless. *)
Theorem processTextWithPunctuation_ignores_padding (a text b : string) :
  allWhite a = true -> allWhite b = true ->
  processTextWithPunctuation (a ++ text ++ b) = processTextWithPunctuation text.
Proof.
  intros Ha Hb.
  unfold processTextWithPunctuation, processTextWithPunctuationFuel, wordsOf.
  now rewrite !blank_test, (trim_pad a text b Ha Hb).
Qed.

Lemma processTextWithPunctuation_ignores_padding_witness :
  processTextWithPunctuation ("  " ++ "hello comma" ++ " ")
  = processTextWithPunctuation "hello comma".
Proof.
  apply (processTextWithPunctuation_ignores_padding "  " "hello comma" " ");
    reflexivity.
Defined.

(** ** The normaliser: what its output looks like *)

Lemma splitWhite_nonnil (s : string) : splitWhite s <> [].
Proof.
  induction s as [|c r IH]; cbn [splitWhite]; [discriminate|].
  destruct (isWhiteSpace c).
  - destruct (startsWithWhite r); [assumption | discriminate].
  - destruct (splitWhite r); discriminate.
Qed.

Lemma wordsOf_length (text : string) : 0 < List.length (wordsOf text).
Proof.
  unfold wordsOf. pose proof (splitWhite_nonnil (trim text)).
  destruct (splitWhite (trim text)); [contradiction | simpl; lia].
Qed.

Lemma processTextWithPunctuation_run (text : string) :
  allWhite text = false ->
  exists st,
    whileLoop (List.length (wordsOf text)) (wordsOf text) initialLoop = Some st
    /\ processTextWithPunctuation text = ls_result st
    /\ List.length (wordsOf text) <= ls_i st.
Proof.
  intros Hw.
  destruct (whileLoop_exits (List.length (wordsOf text)) (wordsOf text) initialLoop)
    as [st [Hrun Hend]]; [simpl; lia|].
  exists st. split; [exact Hrun|]. split; [|exact Hend].
  unfold processTextWithPunctuation, processTextWithPunctuationFuel.
  rewrite blank_test. destruct (trim_nonblank text Hw) as [Hne _].
  destruct (String.eqb_spec (trim text) ""); [contradiction|].
  now rewrite Hrun.
Qed.

Lemma append_nonempty_r (s t : string) : t <> "" -> s ++ t <> "".
Proof. destruct s; simpl; [trivial | discriminate]. Qed.

Lemma plainWord_shown (words : list string) (st : LoopState) :
  Forall (fun w => plainWord w = true) words -> ls_i st < List.length words ->
  plainWord (if ls_shouldCapitalize st
             then capitalizeWord (nth (ls_i st) words "undefined")
             else nth (ls_i st) words "undefined") = true.
Proof.
  intros Hall Hi. pose proof (plainWord_at words (ls_i st) Hall Hi).
  destruct (ls_shouldCapitalize st); [now apply plainWord_capitalize | assumption].
Qed.

Lemma plainWord_nonempty (w : string) : plainWord w = true -> w <> "".
Proof.
  unfold plainWord. intros H. apply andb_true_iff in H as [H _].
  intros ->. discriminate.
Qed.

Lemma headedSymbol_nonempty (v : JsValue) : headedSymbol v = true -> toJsString v <> "".
Proof.
  unfold headedSymbol. intros H.
  apply andb_true_iff in H as [H _]. intros E. rewrite E in H. discriminate.
Qed.

Lemma loopBody_nonempty (words : list string) (st : LoopState) :
  Forall (fun w => plainWord w = true) words -> ls_i st < List.length words ->
  ls_result (loopBody words st) <> "".
Proof.
  intros Hall Hi. unfold loopBody.
  destruct (matchPunctuation words (ls_i st)) as [[symbol n]|] eqn:E; cbn [ls_result].
  - apply matchPunctuationFrom_headed in E. apply headedSymbol_nonempty in E.
    destruct (isLineBreak symbol); repeat apply append_nonempty_r; try assumption.
    discriminate.
  - apply append_nonempty_r. apply plainWord_nonempty. now apply plainWord_shown.
Qed.

Lemma processTextWithPunctuation_blank (text : string) :
  allWhite text = true -> processTextWithPunctuation text = "".
Proof.
  intros Hw. unfold processTextWithPunctuation, processTextWithPunctuationFuel.
  now rewrite blank_test, (allWhite_trim text Hw).
Qed.

(** X4. For input of ASCII characters, the normaliser returns the empty
    string for blank input only. *)
Theorem processTextWithPunctuation_empty_iff_blank (text : string) :
  isAscii text = true ->
  (processTextWithPunctuation text = "" <-> allWhite text = true).
Proof.
  intros _. split.
  - intros Hout. destruct (allWhite text) eqn:Hw; [reflexivity|].
    destruct (processTextWithPunctuation_run text Hw) as [st [Hrun [Hres Hend]]].
    pose proof (wordsOf_length text) as Hlen.
    assert (0 < ls_i st -> ls_result st <> "") as Hinv.
    { revert Hrun.
      apply (whileLoop_invariant (fun s => 0 < ls_i s -> ls_result s <> ""));
        [|simpl; lia].
      intros s Hi _ _. apply loopBody_nonempty; [now apply wordsOf_plain | assumption]. }
    exfalso. apply Hinv; [lia | congruence].
  - apply processTextWithPunctuation_blank.
Qed.

Lemma startsSpace_app (s t : string) :
  startsSpace (s ++ t) = if String.eqb s "" then startsSpace t else startsSpace s.
Proof. destruct s; reflexivity. Qed.

Lemma loopBody_startsSpace (words : list string) (st : LoopState) :
  Forall (fun w => plainWord w = true) words -> ls_i st < List.length words ->
  startsSpace (ls_result st) = false ->
  startsSpace (ls_result (loopBody words st)) = false.
Proof.
  intros Hall Hi Hr. unfold loopBody.
  destruct (matchPunctuation words (ls_i st)) as [[symbol n]|] eqn:E; cbn [ls_result].
  - apply matchPunctuationFrom_headed in E.
    pose proof (headedSymbol_nonempty symbol E) as Hne.
    unfold headedSymbol in E.
    apply andb_true_iff in E as [_ Hstart].
    apply negb_true_iff in Hstart.
    assert (startsSpace (ls_result st ++ toJsString symbol) = false) as Hcat
      by (rewrite startsSpace_app; now destruct (String.eqb (ls_result st) "")).
    destruct (isLineBreak symbol); [assumption|].
    rewrite startsSpace_app.
    destruct (String.eqb_spec (ls_result st ++ toJsString symbol) "") as [Hempty|_];
      [|assumption].
    exfalso. now apply (append_nonempty_r (ls_result st) _ Hne).
  - pose proof (plainWord_shown words st Hall Hi) as Hw.
    unfold plainWord in Hw. apply andb_true_iff in Hw as [_ Hnw].
    destruct (noWhite_facts _ Hnw) as [_ [Hst _]].
    destruct (ls_result st) as [|c r]; [exact Hst|].
    cbn [append startsSpace] in *. exact Hr.
Qed.

(** X5. The normaliser's output never begins with a space. *)
Theorem processTextWithPunctuation_no_leading_space (text : string) :
  startsSpace (processTextWithPunctuation text) = false.
Proof.
  destruct (allWhite text) eqn:Hw.
  - now rewrite (processTextWithPunctuation_blank text Hw).
  - destruct (processTextWithPunctuation_run text Hw) as [st [Hrun [Hres _]]].
    rewrite Hres. revert Hrun.
    apply (whileLoop_invariant (fun s => startsSpace (ls_result s) = false));
      [|reflexivity].
    intros s Hi Hs. apply loopBody_startsSpace; [now apply wordsOf_plain | assumption..].
Qed.

(** ** The normaliser on text without spoken punctuation *)

Lemma join_snoc (l : list string) (x : string) :
  join " " (l ++ [x]) = match l with [] => x | _ :: _ => join " " l ++ " " ++ x end.
Proof.
  induction l as [|a l' IH]; [reflexivity|].
  change (join " " ((a :: l') ++ [x])) with (join " " (a :: (l' ++ [x]))).
  destruct l' as [|b l''].
  - reflexivity.
  - change (join " " (a :: (b :: l'') ++ [x]))
      with (a ++ " " ++ join " " ((b :: l'') ++ [x])).
    rewrite IH.
    change (join " " (a :: b :: l'')) with (a ++ " " ++ join " " (b :: l'')).
    now rewrite !append_assoc.
Qed.

Lemma firstn_S_nth {A : Type} (l : list A) (i : nat) (d : A) :
  i < List.length l -> firstn (S i) l = (firstn i l ++ [nth i l d])%list.
Proof.
  revert i. induction l as [|a l IH]; intros i Hi; [simpl in Hi; lia|].
  destruct i as [|i]; [reflexivity|].
  simpl in Hi. cbn [firstn nth app]. f_equal. apply IH. lia.
Qed.

Lemma Forall_firstn_plain (l : list string) (i : nat) :
  Forall (fun w => plainWord w = true) l ->
  Forall (fun w => plainWord w = true) (firstn i l).
Proof.
  intros H. revert i. induction H as [|a l Ha Hl IH]; intros [|i]; simpl;
    constructor; auto.
Qed.

Lemma plainWord_facts (w : string) :
  plainWord w = true ->
  w <> "" /\ startsWithWhite w = false
  /\ match lastChar w with Some c => isWhiteSpace c = false | None => True end.
Proof.
  intros H. pose proof (plainWord_nonempty w H) as Hne.
  unfold plainWord in H. apply andb_true_iff in H as [_ Hnw].
  destruct (noWhite_facts w Hnw) as [_ [_ [_ Hlast]]].
  repeat split; try assumption.
  destruct w as [|c r]; [contradiction|]. simpl in Hnw. simpl.
  apply andb_true_iff in Hnw as [Hc _]. now apply negb_true_iff in Hc.
Qed.

Lemma startsWithWhite_app (s t : string) :
  s <> "" -> startsWithWhite (s ++ t) = startsWithWhite s.
Proof. destruct s; [contradiction | reflexivity]. Qed.

Lemma join_plain (l : list string) :
  l <> [] -> Forall (fun w => plainWord w = true) l ->
  join " " l <> "" /\ startsWithWhite (join " " l) = false
  /\ match lastChar (join " " l) with Some c => isWhiteSpace c = false | None => True end.
Proof.
  intros Hne Hall. induction Hall as [|w rest Hw Hrest IH]; [contradiction|].
  destruct (plainWord_facts w Hw) as [Hwne [Hws Hwl]].
  destruct rest as [|w' rest']; [repeat split; assumption|].
  change (join " " (w :: w' :: rest')) with (w ++ " " ++ join " " (w' :: rest')).
  destruct IH as [Hjne [_ Hjl]]; [discriminate|].
  repeat split.
  - destruct w; [contradiction | discriminate].
  - now rewrite startsWithWhite_app.
  - rewrite !lastChar_app.
    destruct (lastChar (join " " (w' :: rest'))) as [c|] eqn:L; [assumption|].
    apply lastChar_none in L. contradiction.
Qed.

Lemma lastChar_endsGap (s : string) :
  match lastChar s with Some c => isWhiteSpace c = false | None => True end ->
  endsGap s = false.
Proof.
  unfold endsGap. destruct (lastChar s) as [c|]; [|reflexivity].
  intros Hc. destruct (isGap c) eqn:E; [|reflexivity].
  apply isGap_white in E. congruence.
Qed.

Lemma loopBody_plain (words : list string) (st : LoopState) :
  Forall (fun w => plainWord w = true) words ->
  (forall i, i < List.length words -> matchPunctuation words i = None) ->
  ls_i st < List.length words ->
  ls_shouldCapitalize st = false ->
  ls_result st = join " " (firstn (ls_i st) words) ->
  ls_shouldCapitalize (loopBody words st) = false
  /\ ls_result (loopBody words st) = join " " (firstn (ls_i (loopBody words st)) words).
Proof.
  intros Hall Hnone Hi Hflag Hres. unfold loopBody.
  rewrite (Hnone _ Hi), Hflag. cbn [ls_shouldCapitalize ls_result ls_i].
  split; [reflexivity|].
  rewrite (firstn_S_nth words (ls_i st) "undefined" Hi), join_snoc, getSpacingBefore_cases, Hres.
  destruct (firstn (ls_i st) words) as [|a l] eqn:Ef; [reflexivity|].
  assert (Forall (fun w => plainWord w = true) (a :: l)) as Hpl
    by (rewrite <- Ef; now apply Forall_firstn_plain).
  destruct (join_plain (a :: l)) as [Hne [_ Hlast]]; [discriminate | assumption|].
  rewrite (lastChar_endsGap _ Hlast).
  destruct (String.eqb_spec (join " " (a :: l)) ""); [contradiction|].
  simpl orb. cbv iota. now rewrite append_assoc.
Qed.

Lemma processTextWithPunctuation_plain (text : string) :
  allWhite text = false ->
  (forall i, i < List.length (wordsOf text) -> matchPunctuation (wordsOf text) i = None) ->
  processTextWithPunctuation text = join " " (wordsOf text).
Proof.
  intros Hw Hnone.
  destruct (processTextWithPunctuation_run text Hw) as [st [Hrun [Hres Hend]]].
  pose proof (wordsOf_plain text Hw) as Hall.
  set (words := wordsOf text) in *.
  assert (ls_shouldCapitalize st = false
          /\ ls_i st <= List.length words
          /\ ls_result st = join " " (firstn (ls_i st) words)) as [_ [Hle Hjoin]].
  { revert Hrun.
    apply (whileLoop_invariant
             (fun s => ls_shouldCapitalize s = false
                       /\ ls_i s <= List.length words
                       /\ ls_result s = join " " (firstn (ls_i s) words)));
      [|repeat split; simpl; lia].
    intros s Hi [Hflag [_ Hjoin]].
    destruct (loopBody_plain words s Hall Hnone Hi Hflag Hjoin) as [Hf Hr].
    pose proof (loopBody_advance words s Hi). repeat split; [assumption | lia | assumption]. }
  rewrite Hres, Hjoin. now rewrite firstn_all2 by lia.
Qed.

(** X6. A transcript of ASCII characters in which no spoken punctuation
    is found comes back as its words joined by single spaces: runs of white
    space are collapsed, the ends are trimmed, nothing is capitalised. *)
Theorem processTextWithPunctuation_collapses_whitespace (text : string) :
  isAscii text = true ->
  allWhite text = false ->
  (forall i, i < List.length (wordsOf text) -> matchPunctuation (wordsOf text) i = None) ->
  processTextWithPunctuation text = join " " (wordsOf text).
Proof. intros _. apply processTextWithPunctuation_plain. Qed.

Lemma no_phrase_in_sample (i : nat) :
  i < List.length (wordsOf "  hello   there world ") ->
  matchPunctuation (wordsOf "  hello   there world ") i = None.
Proof.
  change (wordsOf "  hello   there world ") with ["hello"; "there"; "world"].
  destruct i as [|[|[|i]]]; simpl List.length; intros Hi; try reflexivity; lia.
Qed.

Lemma processTextWithPunctuation_collapses_whitespace_witness :
  processTextWithPunctuation "  hello   there world " = "hello there world".
Proof.
  exact (processTextWithPunctuation_collapses_whitespace "  hello   there world "
           eq_refl eq_refl no_phrase_in_sample).
Defined.

Lemma splitWhite_word_app (w s : string) :
  noWhite w = true ->
  splitWhite (w ++ s) =
  match splitWhite s with
  | h :: t => (w ++ h) :: t
  | [] => [w]
  end.
Proof.
  induction w as [|c r IH]; intros Hw.
  - simpl. pose proof (splitWhite_nonnil s). destruct (splitWhite s); [contradiction | reflexivity].
  - cbn [noWhite] in Hw. apply andb_true_iff in Hw as [Hc Hr].
    apply negb_true_iff in Hc.
    cbn [append splitWhite]. rewrite Hc, (IH Hr).
    pose proof (splitWhite_nonnil s). destruct (splitWhite s); [contradiction | reflexivity].
Qed.

Lemma splitWhite_join (l : list string) :
  l <> [] -> Forall (fun w => plainWord w = true) l -> splitWhite (join " " l) = l.
Proof.
  intros Hne Hall. induction Hall as [|w rest Hw Hrest IH]; [contradiction|].
  assert (noWhite w = true) as Hnw
    by (unfold plainWord in Hw; now apply andb_true_iff in Hw as [_ Hnw]).
  destruct rest as [|w' rest'].
  - cbn [join]. rewrite <- (append_empty_r w) at 1.
    rewrite (splitWhite_word_app w "" Hnw). simpl. now rewrite append_empty_r.
  - change (join " " (w :: w' :: rest')) with (w ++ " " ++ join " " (w' :: rest')).
    rewrite (splitWhite_word_app w _ Hnw).
    destruct (join_plain (w' :: rest')) as [_ [Hstart _]]; [discriminate | assumption|].
    change (" " ++ join " " (w' :: rest')) with (String " " (join " " (w' :: rest'))).
    cbn [splitWhite]. change (isWhiteSpace " ") with true. cbv iota.
    rewrite Hstart, IH by discriminate. now rewrite append_empty_r.
Qed.

Lemma trimStart_id (s : string) : startsWithWhite s = false -> trimStart s = s.
Proof. destruct s as [|c r]; simpl; [reflexivity | now intros ->]. Qed.

Lemma trimEnd_id (s : string) :
  match lastChar s with Some c => isWhiteSpace c = false | None => True end ->
  trimEnd s = s.
Proof.
  induction s as [|c r IH]; [reflexivity|].
  rewrite lastChar_cons. cbn [trimEnd]. intros Hl.
  destruct (lastChar r) as [l|] eqn:L.
  - rewrite (IH Hl).
    destruct (allWhite r) eqn:E.
    + apply allWhite_lastChar in E. rewrite L in E. congruence.
    + now rewrite andb_false_r.
  - apply lastChar_none in L. subst r. rewrite Hl. reflexivity.
Qed.

Lemma wordsOf_join (l : list string) :
  l <> [] -> Forall (fun w => plainWord w = true) l ->
  wordsOf (join " " l) = l /\ allWhite (join " " l) = false.
Proof.
  intros Hne Hall. destruct (join_plain l Hne Hall) as [Hjne [Hstart Hlast]].
  split.
  - unfold wordsOf, trim. rewrite (trimStart_id _ Hstart), (trimEnd_id _ Hlast).
    now apply splitWhite_join.
  - destruct (join " " l) as [|c r]; [contradiction|]. simpl in *. now rewrite Hstart.
Qed.

(** X7. On a transcript of ASCII characters without spoken punctuation
    the normaliser is idempotent: normalising its output again returns that
    output. *)
Theorem processTextWithPunctuation_idempotent_plain (text : string) :
  isAscii text = true ->
  allWhite text = false ->
  (forall i, i < List.length (wordsOf text) -> matchPunctuation (wordsOf text) i = None) ->
  processTextWithPunctuation (processTextWithPunctuation text)
  = processTextWithPunctuation text.
Proof.
  intros _ Hw Hnone. rewrite (processTextWithPunctuation_plain text Hw Hnone).
  pose proof (wordsOf_plain text Hw) as Hall.
  assert (wordsOf text <> []) as Hne
    by (pose proof (wordsOf_length text); destruct (wordsOf text); [simpl in *; lia | discriminate]).
  destruct (wordsOf_join (wordsOf text) Hne Hall) as [Hwords Hnb].
  rewrite (processTextWithPunctuation_plain _ Hnb); rewrite Hwords; [reflexivity | assumption].
Qed.

Lemma processTextWithPunctuation_idempotent_plain_witness :
  processTextWithPunctuation (processTextWithPunctuation "  hello   there world ")
  = processTextWithPunctuation "  hello   there world ".
Proof.
  exact (processTextWithPunctuation_idempotent_plain "  hello   there world "
           eq_refl eq_refl no_phrase_in_sample).
Defined.

(** ** Committing into a document *)

Lemma toUpperChar_gap (c : ascii) :
  isGap (toUpperChar c) = isGap c /\ Ascii.eqb (toUpperChar c) SP = Ascii.eqb c SP.
Proof. destruct c as [[] [] [] [] [] [] [] []]; split; reflexivity. Qed.

Lemma capitalizeWord_spacing (t : string) :
  wellSpaced (capitalizeWord t) = wellSpaced t
  /\ startsSpace (capitalizeWord t) = startsSpace t.
Proof.
  rewrite capitalizeWord_head. destruct t as [|c r]; [split; reflexivity|].
  destruct (toUpperChar_gap c) as [Hg Hs].
  cbn [wellSpaced startsSpace]. rewrite Hg, Hs. split; reflexivity.
Qed.

Lemma prepareTextForInsertion_wellSpaced (d t : string) :
  wellSpaced d = true -> wellSpaced t = true -> startsSpace t = false ->
  wellSpaced (d ++ prepareTextForInsertion (mkEditor d) t) = true.
Proof.
  intros Hd Ht Hst. unfold prepareTextForInsertion, getContent, content.
  set (t' := if shouldCapitalizeText d t then capitalizeWord t else t).
  assert (wellSpaced t' = true /\ startsSpace t' = false) as [Ht' Hst'].
  { subst t'. destruct (shouldCapitalizeText d t); [|split; assumption].
    destruct (capitalizeWord_spacing t) as [-> ->]. split; assumption. }
  unfold needsSpaceBefore. rewrite length_zero_empty.
  destruct (String.eqb_spec d "") as [->|Hne]; [exact Ht'|].
  rewrite orb_comm, spacing_endsGap.
  destruct (endsGap d) eqn:Eg.
  - now rewrite wellSpaced_app, Hd, Ht', Hst', andb_false_r.
  - destruct (startsPunctuation t').
    + now rewrite wellSpaced_app, Hd, Ht', Eg.
    + rewrite wellSpaced_app, Hd, Eg. cbn [andb negb].
      change (" " ++ t') with (String SP t').
      destruct t' as [|c r]; [reflexivity|].
      cbn [wellSpaced] in Ht' |- *. simpl in Hst'.
      now rewrite Hst', andb_false_r, Ht'.
Qed.

(** X8. For a document and a transcript of ASCII characters, the
    transcript holding no phrase but the table's own: appending the
    committed text to a document in which no space follows a space or a
    line feed gives a document with the same property; the space the commit
    may add never doubles one and never follows a line break. *)
Theorem commit_keeps_document_wellSpaced (d text : string) :
  isAscii d = true -> isAscii text = true ->
  ownPhrasesOnly (wordsOf text) = true ->
  wellSpaced d = true ->
  wellSpaced
    (d ++ prepareTextForInsertion (mkEditor d) (processTextWithPunctuation text)) = true.
Proof.
  intros _ _ Hown Hd. apply prepareTextForInsertion_wellSpaced; [assumption | |].
  - now apply processTextWithPunctuation_wellSpaced.
  - destruct (allWhite text) eqn:Hw.
    + now rewrite (processTextWithPunctuation_blank text Hw).
    + destruct (processTextWithPunctuation_run text Hw) as [st [Hrun [Hres _]]].
      rewrite Hres. revert Hrun.
      apply (whileLoop_invariant (fun s => startsSpace (ls_result s) = false));
        [|reflexivity].
      intros s Hi Hs. apply loopBody_startsSpace; [now apply wordsOf_plain | assumption..].
Qed.

Lemma commit_keeps_document_wellSpaced_witness :
  wellSpaced
    ("Hello world. " ++
     prepareTextForInsertion (mkEditor "Hello world. ")
       (processTextWithPunctuation "comma there is more")) = true.
Proof.
  apply (commit_keeps_document_wellSpaced "Hello world. " "comma there is more");
    reflexivity.
Defined.

(** ** The session: what the handlers do to the world *)

Lemma handleRecognitionResult_unfold (w : World) (event : SpeechRecognitionEvent) :
  handleRecognitionResult w event =
  handleFinalTranscript
    (if String.eqb (Spec.interimText (Spec.slotsFrom event)) ""
     then setFinalTranscript w
            (finalTranscript (state w) ++ Spec.finalText (Spec.slotsFrom event))
     else updatePreview
            (setFinalTranscript w
               (finalTranscript (state w) ++ Spec.finalText (Spec.slotsFrom event)))
            (Spec.interimText (Spec.slotsFrom event))).
Proof.
  unfold handleRecognitionResult.
  now rewrite (collectResults_spec _ _ _ _ _ eq_refl).
Qed.

Lemma handleFinalTranscript_editor (w : World) :
  editor (handleFinalTranscript w) =
  if String.eqb (finalTranscript (state w)) "" then editor w
  else insertContent (editor w)
         (prepareTextForInsertion (editor w)
            (processTextWithPunctuation (finalTranscript (state w)))).
Proof.
  world w. unfold handleFinalTranscript. cbn [state finalTranscript editor].
  destruct (String.eqb ft ""); [reflexivity|].
  unfold updatePreview. destruct pc; reflexivity.
Qed.

Lemma handleFinalTranscript_trace (w : World) :
  exists l, trace (handleFinalTranscript w) = (trace w ++ l)%list
            /\ forallb isTextEffect l = true
            /\ speechApi (handleFinalTranscript w) = speechApi w.
Proof.
  world w. unfold handleFinalTranscript. cbn [state finalTranscript].
  destruct (String.eqb ft "").
  - exists []. repeat split. simpl. now rewrite app_nil_r.
  - unfold updatePreview. destruct pc; simpl.
    + eexists. split; [rewrite <- app_assoc; reflexivity | split; reflexivity].
    + eexists. split; [reflexivity | split; reflexivity].
Qed.

Lemma updatePreview_trace (w : World) (text : string) :
  exists l, trace (updatePreview w text) = (trace w ++ l)%list
            /\ forallb isTextEffect l = true
            /\ speechApi (updatePreview w text) = speechApi w.
Proof.
  world w. unfold updatePreview. destruct pc; simpl.
  - eexists. split; [reflexivity | split; reflexivity].
  - exists []. repeat split. now rewrite app_nil_r.
Qed.

Lemma handleRecognitionResult_trace (w : World) (event : SpeechRecognitionEvent) :
  exists l, trace (handleRecognitionResult w event) = (trace w ++ l)%list
            /\ forallb isTextEffect l = true
            /\ speechApi (handleRecognitionResult w event) = speechApi w.
Proof.
  rewrite handleRecognitionResult_unfold.
  set (w1 := setFinalTranscript w _).
  assert (trace w1 = trace w /\ speechApi w1 = speechApi w) as [Ht1 Ha1]
    by (subst w1; world w; split; reflexivity).
  destruct (String.eqb (Spec.interimText (Spec.slotsFrom event)) "").
  - destruct (handleFinalTranscript_trace w1) as [l [Hl [Hf Ha]]].
    exists l. rewrite Hl, Ha, Ht1, Ha1. repeat split; assumption.
  - destruct (updatePreview_trace w1 (Spec.interimText (Spec.slotsFrom event)))
      as [l1 [Hl1 [Hf1 Hs1]]].
    destruct (handleFinalTranscript_trace
                (updatePreview w1 (Spec.interimText (Spec.slotsFrom event))))
      as [l2 [Hl2 [Hf2 Hs2]]].
    exists (l1 ++ l2)%list. rewrite Hl2, Hl1, Hs2, Hs1, Ht1, Ha1.
    repeat split; [now rewrite app_assoc | now rewrite forallb_app, Hf1, Hf2].
Qed.

Lemma countEffects_app (p : Effect -> bool) (tr l : list Effect) :
  countEffects p (tr ++ l) = countEffects p tr + countEffects p l.
Proof. unfold countEffects. now rewrite filter_app, length_app. Qed.

Lemma countEffects_text (p : Effect -> bool) (l : list Effect) :
  (forall e, isTextEffect e = true -> p e = false) ->
  forallb isTextEffect l = true -> countEffects p l = 0.
Proof.
  intros Hp. induction l as [|e l IH]; [reflexivity|].
  cbn [forallb]. intros H. apply andb_true_iff in H as [He Hl].
  unfold countEffects in *. cbn [filter]. rewrite (Hp e He). now apply IH.
Qed.

Lemma isStart_text (e : Effect) : isTextEffect e = true -> isStart e = false.
Proof. destruct e; simpl; congruence. Qed.

Lemma isCreated_text (e : Effect) : isTextEffect e = true -> isCreated e = false.
Proof. destruct e; simpl; congruence. Qed.

Lemma step_speechApi (w : World) (e : Event) (w' : World) :
  step w e = Some w' -> speechApi w' = speechApi w.
Proof.
  destruct e as [startThrows|event| | | |newContent]; simpl.
  - world w. unfold handleAction.
    destruct lis, rcg, api, pc, startThrows; simpl; intros H; inversion H; reflexivity.
  - intros H; inversion H.
    destruct (handleRecognitionResult_trace w event) as [l [_ [_ Ha]]]. exact Ha.
  - intros H; inversion H. world w. destruct pc; reflexivity.
  - intros H; inversion H. world w. destruct pc; reflexivity.
  - intros H; inversion H. world w. destruct lis, rcg, pc; reflexivity.
  - intros H; inversion H. reflexivity.
Qed.

Ltac session_cases :=
  simpl; rewrite ?countEffects_app; unfold countEffects; simpl;
  repeat split; intros; try congruence; try lia; auto.

(** What the recogniser-related counters and flags do in one step. *)
Lemma step_recognition (w : World) (e : Event) (w' : World) :
  step w e = Some w' ->
  (recognition (state w) = true -> recognition (state w') = true)
  /\ (recognition (state w') = true ->
      recognition (state w) = true \/ speechApi w = true)
  /\ countEffects isCreated (trace w') =
     countEffects isCreated (trace w)
     + (if recognition (state w) then 0
        else if recognition (state w') then 1 else 0).
Proof.
  destruct e as [startThrows|event| | | |newContent]; simpl.
  - world w. unfold handleAction.
    destruct lis, rcg, api, pc, startThrows; simpl; intros H; inversion H; subst w';
      session_cases.
  - intros H; inversion H; subst w'.
    destruct (handleRecognitionResult_state w event) as [_ [Hl [Hr _]]].
    destruct (handleRecognitionResult_trace w event) as [l [Ht [Hf _]]].
    rewrite Hr, Ht, !countEffects_app.
    rewrite (countEffects_text isCreated l isCreated_text Hf).
    destruct (recognition (state w)); repeat split; intros; try congruence; try lia; auto.
  - intros H; inversion H; subst w'. world w.
    destruct rcg, pc; session_cases.
  - intros H; inversion H; subst w'. world w.
    destruct rcg, pc; session_cases.
  - intros H; inversion H; subst w'. world w.
    destruct lis, rcg, pc; session_cases.
  - intros H; inversion H; subst w'. simpl.
    destruct (recognition (state w)); repeat split; intros; try congruence; try lia; auto.
Qed.

Lemma reachable_api (w : World) :
  reachable w -> recognition (state w) = true -> speechApi w = true.
Proof.
  induction 1 as [api document|w e w' Hw IH Hstep]; [discriminate|].
  intros Hr. destruct (step_recognition w e w' Hstep) as [_ [Hback _]].
  rewrite (step_speechApi w e w' Hstep). destruct (Hback Hr); auto.
Qed.

Lemma reachable_created (w : World) :
  reachable w ->
  countEffects isCreated (trace w) = if recognition (state w) then 1 else 0.
Proof.
  induction 1 as [api document|w e w' Hw IH Hstep]; [reflexivity|].
  destruct (step_recognition w e w' Hstep) as [Hkeep [_ Hcount]].
  rewrite Hcount, IH.
  destruct (recognition (state w)); [now rewrite (Hkeep eq_refl)|].
  destruct (recognition (state w')); reflexivity.
Qed.

(** X9. In a session, no event makes a handler throw: in particular the
    toolbar action never calls [stop] on a missing recogniser. *)
Theorem step_never_throws (w : World) (e : Event) :
  reachable w -> exists w', step w e = Some w'.
Proof.
  intros Hreach. destruct (reachable_invariant w Hreach) as [_ [Hon _]].
  destruct e as [startThrows|event| | | |newContent]; simpl; try (eexists; reflexivity).
  unfold handleAction. destruct (listening (state w)) eqn:Hl; simpl.
  - destruct (Hon eq_refl) as [-> _]. eexists; reflexivity.
  - destruct (_ || startThrows); eexists; reflexivity.
Qed.

Lemma step_never_throws_witness :
  exists w', step stoppedWorld (Action true) = Some w'.
Proof. exact (step_never_throws stoppedWorld (Action true) stoppedWorld_reachable). Defined.

(** X10. When the recogniser cannot be started, because [start] throws or
    because the browser has no speech API, the toolbar action leaves the
    session idle with the preview removed again, the document untouched and
    no recogniser started. *)
Theorem handleAction_start_failure (w : World) (startThrows : bool) :
  reachable w -> listening (state w) = false ->
  startThrows = true \/ speechApi w = false ->
  exists w', handleAction startThrows w = Some w'
             /\ listening (state w') = false
             /\ previewContainer (state w') = None
             /\ editor w' = editor w
             /\ countEffects isStart (trace w') = countEffects isStart (trace w)
             /\ countEffects (fun e => match e with ConsoleError => true | _ => false end)
                             (trace w')
                = S (countEffects (fun e => match e with ConsoleError => true | _ => false end)
                                  (trace w)).
Proof.
  intros Hreach Hlis Hfail.
  destruct (reachable_invariant w Hreach) as [_ [_ Hoff]]. specialize (Hoff Hlis).
  pose proof (reachable_api w Hreach) as Hapi.
  world w. cbn [state listening previewContainer recognition speechApi] in *. subst lis pc.
  unfold handleAction. cbn [state listening negb recognition].
  destruct rcg, api, startThrows; simpl;
    try (destruct Hfail; discriminate);
    try (specialize (Hapi eq_refl); discriminate);
    eexists; (split; [reflexivity|]); session_cases.
Qed.

Lemma handleAction_start_failure_witness :
  exists w', handleAction false unsupportedWorld = Some w'
             /\ listening (state w') = false
             /\ previewContainer (state w') = None
             /\ editor w' = editor unsupportedWorld
             /\ countEffects isStart (trace w') = countEffects isStart (trace unsupportedWorld)
             /\ countEffects (fun e => match e with ConsoleError => true | _ => false end)
                             (trace w')
                = S (countEffects (fun e => match e with ConsoleError => true | _ => false end)
                                  (trace unsupportedWorld)).
Proof.
  apply (handleAction_start_failure unsupportedWorld false).
  - apply (reachable_initial false "Hi.").
  - reflexivity.
  - right. reflexivity.
Defined.

(** X12. The recogniser of an editor is constructed at most once: the
    trace of a session holds one creation exactly when the state holds a
    recogniser, and a recogniser once held is never dropped. *)
Theorem recognition_created_once (w : World) (e : Event) (w' : World) :
  reachable w -> step w e = Some w' ->
  countEffects isCreated (trace w') = (if recognition (state w') then 1 else 0)
  /\ (recognition (state w) = true -> recognition (state w') = true).
Proof.
  intros Hreach Hstep. split.
  - apply reachable_created. now apply (reachable_step w e w').
  - apply (step_recognition w e w' Hstep).
Qed.

Lemma recognition_created_once_witness :
  countEffects isCreated (trace stoppedWorld) = 1
  /\ (recognition (state listeningWorld) = true -> recognition (state stoppedWorld) = true).
Proof.
  exact (recognition_created_once listeningWorld (Action false) stoppedWorld
           listeningWorld_reachable eq_refl).
Defined.

Lemma finalText_interim_only (slots : list SpeechRecognitionResult) :
  Forall (fun slot => isFinal slot = false) slots -> Spec.finalText slots = "".
Proof.
  intros H. unfold Spec.finalText.
  replace (filter isFinal slots) with (@nil SpeechRecognitionResult); [reflexivity|].
  induction H as [|slot rest Hs Hrest IH]; [reflexivity|]. simpl. now rewrite Hs.
Qed.

(** X13. A result event that carries only interim slots never reaches the
    document: the content is unchanged, nothing is inserted and nothing is
    left pending. *)
Theorem interim_results_never_committed (w : World) (event : SpeechRecognitionEvent) :
  reachable w ->
  Forall (fun slot => isFinal slot = false) (Spec.slotsFrom event) ->
  editor (handleRecognitionResult w event) = editor w
  /\ finalTranscript (state (handleRecognitionResult w event)) = ""
  /\ countEffects isInsert (trace (handleRecognitionResult w event))
     = countEffects isInsert (trace w).
Proof.
  intros Hreach Hslots.
  destruct (reachable_invariant w Hreach) as [Hft _].
  rewrite handleRecognitionResult_unfold, (finalText_interim_only _ Hslots), Hft.
  cbn [append].
  assert (setFinalTranscript w "" = w) as -> by (world w; simpl in Hft; now subst).
  set (interim := Spec.interimText (Spec.slotsFrom event)).
  world w. cbn [state finalTranscript] in Hft. subst ft.
  unfold handleFinalTranscript, updatePreview.
  destruct (String.eqb interim ""), pc; session_cases.
Qed.

Lemma interim_results_never_committed_witness :
  editor (handleRecognitionResult listeningWorld
            (mkEvent 1 [mkResult "done" true; mkResult "hello wor" false]))
  = editor listeningWorld.
Proof.
  refine (proj1 (interim_results_never_committed listeningWorld
                   (mkEvent 1 [mkResult "done" true; mkResult "hello wor" false])
                   listeningWorld_reachable _)).
  repeat constructor.
Defined.

(** X14. A result event whose [resultIndex] lies at or beyond the end of
    its results changes nothing at all. *)
Theorem result_index_past_end (w : World) (event : SpeechRecognitionEvent) :
  reachable w -> List.length (results event) <= resultIndex event ->
  handleRecognitionResult w event = w.
Proof.
  intros Hreach Hidx.
  destruct (reachable_invariant w Hreach) as [Hft _].
  rewrite handleRecognitionResult_unfold. unfold Spec.slotsFrom.
  rewrite (skipn_all2 _ Hidx). cbn. rewrite Hft. cbn.
  world w. cbn [state finalTranscript] in Hft. subst ft. reflexivity.
Qed.

Lemma result_index_past_end_witness :
  handleRecognitionResult listeningWorld (mkEvent 2 [mkResult "a" true; mkResult "b" true])
  = listeningWorld.
Proof.
  apply (result_index_past_end listeningWorld
           (mkEvent 2 [mkResult "a" true; mkResult "b" true]) listeningWorld_reachable).
  simpl. lia.
Defined.

Lemma pending_before_commit (w : World) (event : SpeechRecognitionEvent) :
  let w1 := if String.eqb (Spec.interimText (Spec.slotsFrom event)) ""
            then setFinalTranscript w
                   (finalTranscript (state w) ++ Spec.finalText (Spec.slotsFrom event))
            else updatePreview
                   (setFinalTranscript w
                      (finalTranscript (state w) ++ Spec.finalText (Spec.slotsFrom event)))
                   (Spec.interimText (Spec.slotsFrom event)) in
  finalTranscript (state w1)
  = finalTranscript (state w) ++ Spec.finalText (Spec.slotsFrom event)
  /\ editor w1 = editor w.
Proof.
  cbv zeta. destruct (String.eqb _ "").
  - world w. split; reflexivity.
  - destruct (updatePreview_state
                (setFinalTranscript w
                   (finalTranscript (state w) ++ Spec.finalText (Spec.slotsFrom event)))
                (Spec.interimText (Spec.slotsFrom event))) as [Hf [_ [_ [_ He]]]].
    rewrite Hf, He. world w. split; reflexivity.
Qed.

(** X15. A final result that carries no words is still committed: the
    document receives a single space when it is non-empty and does not end
    in a space or newline, and the empty string otherwise. *)
Theorem blank_final_result_commits_space (w : World) (event : SpeechRecognitionEvent) :
  reachable w ->
  Spec.finalText (Spec.slotsFrom event) <> "" ->
  allWhite (Spec.finalText (Spec.slotsFrom event)) = true ->
  content (editor (handleRecognitionResult w event))
  = content (editor w)
    ++ (if needsSpaceBefore (content (editor w)) "" then " " else "").
Proof.
  intros Hreach Hne Hblank.
  destruct (reachable_invariant w Hreach) as [Hft _].
  rewrite handleRecognitionResult_unfold, handleFinalTranscript_editor.
  destruct (pending_before_commit w event) as [Hp He]. cbv zeta in Hp, He.
  rewrite Hp, He, Hft. cbn [append].
  destruct (String.eqb_spec (Spec.finalText (Spec.slotsFrom event)) ""); [contradiction|].
  rewrite (processTextWithPunctuation_blank _ Hblank).
  unfold insertContent, prepareTextForInsertion, getContent, shouldCapitalizeText.
  cbn [content startsLower negb]. rewrite orb_true_r.
  destruct (needsSpaceBefore (content (editor w)) ""); reflexivity.
Qed.

Lemma blank_final_result_commits_space_witness :
  content (editor (handleRecognitionResult listeningWorld (mkEvent 0 [mkResult "" true])))
  = content (editor listeningWorld)
    ++ (if needsSpaceBefore (content (editor listeningWorld)) "" then " " else "").
Proof.
  apply (blank_final_result_commits_space listeningWorld (mkEvent 0 [mkResult "" true])
           listeningWorld_reachable).
  - discriminate.
  - reflexivity.
Defined.

(** X16. Only a result event writes into the document: the toolbar
    action, a recognition error or end and the close button leave the
    content as it is and insert nothing, whatever the state. *)
Theorem only_results_write_document (w : World) (e : Event) (w' : World) :
  step w e = Some w' ->
  match e with
  | OnResult _ | UserEdit _ => True
  | _ => editor w' = editor w
         /\ countEffects isInsert (trace w') = countEffects isInsert (trace w)
  end.
Proof.
  destruct e as [startThrows|event| | | |newContent]; simpl; trivial;
    intros H; world w.
  - unfold handleAction in H.
    destruct lis, rcg, api, pc, startThrows; simpl in H; inversion H; session_cases.
  - inversion H. destruct pc; session_cases.
  - inversion H. destruct pc; session_cases.
  - inversion H. destruct lis, rcg, pc; session_cases.
Qed.

Lemma only_results_write_document_witness :
  editor stoppedWorld = editor listeningWorld
  /\ countEffects isInsert (trace stoppedWorld) = countEffects isInsert (trace listeningWorld).
Proof.
  exact (only_results_write_document listeningWorld (Action false) stoppedWorld eq_refl).
Defined.

(** X17. What the preview shows after a result event in a listening
    session: nothing when something final was committed, the normalised
    interim text when there was only interim text, and what it showed
    before when the event carried neither. *)
Theorem preview_after_result (w : World) (event : SpeechRecognitionEvent) :
  reachable w -> listening (state w) = true ->
  exists shown,
    previewContainer (state w) = Some shown
    /\ previewContainer (state (handleRecognitionResult w event)) =
       Some (if negb (String.eqb (Spec.finalText (Spec.slotsFrom event)) "") then ""
             else if String.eqb (Spec.interimText (Spec.slotsFrom event)) "" then shown
             else processTextWithPunctuation (Spec.interimText (Spec.slotsFrom event))).
Proof.
  intros Hreach Hlis.
  destruct (reachable_invariant w Hreach) as [Hft [Hon _]].
  destruct (Hon Hlis) as [_ Hpc].
  rewrite handleRecognitionResult_unfold, Hft. cbn [append].
  world w. cbn [state previewContainer] in *.
  destruct pc as [shown|]; [|contradiction]. exists shown. split; [reflexivity|].
  unfold handleFinalTranscript, updatePreview.
  destruct (String.eqb (Spec.interimText (Spec.slotsFrom event)) "");
    simpl; destruct (String.eqb (Spec.finalText (Spec.slotsFrom event)) ""); reflexivity.
Qed.

Lemma preview_after_result_witness :
  exists shown,
    previewContainer (state listeningWorld) = Some shown
    /\ previewContainer
         (state (handleRecognitionResult listeningWorld
                   (mkEvent 0 [mkResult "hello comma wor" false]))) =
       Some (if negb (String.eqb
                        (Spec.finalText
                           (Spec.slotsFrom (mkEvent 0 [mkResult "hello comma wor" false]))) "")
             then ""
             else if String.eqb
                       (Spec.interimText
                          (Spec.slotsFrom (mkEvent 0 [mkResult "hello comma wor" false]))) ""
             then shown
             else processTextWithPunctuation
                    (Spec.interimText
                       (Spec.slotsFrom (mkEvent 0 [mkResult "hello comma wor" false])))).
Proof.
  exact (preview_after_result listeningWorld (mkEvent 0 [mkResult "hello comma wor" false])
           listeningWorld_reachable eq_refl).
Defined.

Lemma isShown_text (e : Effect) : isTextEffect e = true -> isShown e = false.
Proof. destruct e; simpl; congruence. Qed.

Lemma isRemoved_text (e : Effect) : isTextEffect e = true -> isRemoved e = false.
Proof. destruct e; simpl; congruence. Qed.

Lemma step_preview_balance (w : World) (e : Event) (w' : World) :
  step w e = Some w' ->
  countEffects isShown (trace w)
  = countEffects isRemoved (trace w)
    + (match previewContainer (state w) with Some _ => 1 | None => 0 end) ->
  countEffects isShown (trace w')
  = countEffects isRemoved (trace w')
    + (match previewContainer (state w') with Some _ => 1 | None => 0 end).
Proof.
  destruct e as [startThrows|event| | | |newContent]; simpl.
  - world w. unfold handleAction.
    destruct lis, rcg, api, pc, startThrows; simpl; intros H; inversion H;
      unfold countEffects; simpl; rewrite ?filter_app, ?length_app; simpl; lia.
  - intros H Hbal; inversion H; subst w'.
    destruct (handleRecognitionResult_state w event) as [_ [_ [_ Hp]]].
    destruct (handleRecognitionResult_trace w event) as [l [Ht [Hf _]]].
    rewrite Ht, !countEffects_app.
    rewrite (countEffects_text isShown l isShown_text Hf).
    rewrite (countEffects_text isRemoved l isRemoved_text Hf).
    destruct (previewContainer (state (handleRecognitionResult w event))) as [s'|],
             (previewContainer (state w)) as [s|]; try lia.
    + destruct Hp as [_ Hp]. specialize (Hp eq_refl). discriminate.
    + destruct Hp as [Hp _]. specialize (Hp eq_refl). discriminate.
  - intros H; inversion H. world w.
    destruct pc; unfold countEffects; simpl; rewrite ?filter_app, ?length_app; simpl; lia.
  - intros H; inversion H. world w.
    destruct pc; unfold countEffects; simpl; rewrite ?filter_app, ?length_app; simpl; lia.
  - intros H; inversion H. world w.
    destruct lis, rcg, pc; unfold countEffects; simpl;
      rewrite ?filter_app, ?length_app; simpl; lia.
  - intros H; inversion H. simpl. trivial.
Qed.

(** X23. Preview panels do not pile up or leak: in every state of a
    session the number of panels created equals the number removed, plus
    one exactly while a panel is on display; so an idle session has removed
    every panel it ever showed. *)
Theorem preview_panels_balanced (w : World) :
  reachable w ->
  countEffects isShown (trace w)
  = countEffects isRemoved (trace w)
    + (match previewContainer (state w) with Some _ => 1 | None => 0 end)
  /\ (listening (state w) = false ->
      countEffects isShown (trace w) = countEffects isRemoved (trace w)).
Proof.
  intros Hreach.
  assert (countEffects isShown (trace w)
          = countEffects isRemoved (trace w)
            + (match previewContainer (state w) with Some _ => 1 | None => 0 end)) as Hbal.
  { induction Hreach as [api document|w e w' Hw IH Hstep]; [reflexivity|].
    now apply (step_preview_balance w e w'). }
  split; [exact Hbal|].
  intros Hlis. destruct (reachable_invariant w Hreach) as [_ [_ Hoff]].
  rewrite (Hoff Hlis) in Hbal. lia.
Qed.

Lemma preview_panels_balanced_witness :
  countEffects isShown (trace stoppedWorld) = countEffects isRemoved (trace stoppedWorld).
Proof.
  exact (proj2 (preview_panels_balanced stoppedWorld stoppedWorld_reachable) eq_refl).
Defined.

(** X24. A result event makes one insertion into the document when its
    pending text is not empty, however many final slots contributed to it,
    and none otherwise; the text inserted is the prepared normalisation of
    the whole pending text. *)
Theorem one_insertion_per_result (w : World) (event : SpeechRecognitionEvent) :
  let pending := finalTranscript (state w) ++ Spec.finalText (Spec.slotsFrom event) in
  countEffects isInsert (trace (handleRecognitionResult w event))
  = countEffects isInsert (trace w) + (if String.eqb pending "" then 0 else 1)
  /\ content (editor (handleRecognitionResult w event))
     = content (editor w)
       ++ (if String.eqb pending "" then ""
           else prepareTextForInsertion (editor w) (processTextWithPunctuation pending)).
Proof.
  cbv zeta. rewrite handleRecognitionResult_unfold, handleFinalTranscript_editor.
  destruct (pending_before_commit w event) as [Hp He]. cbv zeta in Hp, He.
  rewrite Hp, He.
  generalize dependent (Spec.interimText (Spec.slotsFrom event)).
  generalize (Spec.finalText (Spec.slotsFrom event)) as fin.
  intros fin interim _ _. world w.
  cbn [state finalTranscript editor].
  split.
  - unfold handleFinalTranscript, updatePreview.
    destruct (String.eqb interim ""), pc;
      cbv beta iota zeta delta
          [setFinalTranscript setPreviewContainer setState emit insertContent state
           finalTranscript editor content recognition listening previewContainer
           speechApi trace];
      destruct (String.eqb (ft ++ fin) "");
      rewrite ?countEffects_app; unfold countEffects; simpl; lia.
  - destruct (String.eqb (ft ++ fin) ""); [now rewrite append_empty_r | reflexivity].
Qed.

Lemma empty_iff_blank_witness : allWhite (String LF "  ") = true.
Proof.
  apply (proj1 (processTextWithPunctuation_empty_iff_blank (String LF "  ") eq_refl)).
  reflexivity.
Defined.

(** ** The registry of editor states *)

(** X18. [getEditorState] never returns [undefined]: it returns the state
    now registered for the editor, a fresh one if the editor had none; a
    second call returns the same state without touching the map, an editor
    that already has a state keeps the map as it is, and the states of other
    editors are never affected. *)
Theorem getEditorState_registry (m : WeakMap) (e e' : EditorId) :
  snd (getEditorState m e) <> None
  /\ weakMapGet (fst (getEditorState m e)) e = snd (getEditorState m e)
  /\ getEditorState (fst (getEditorState m e)) e = getEditorState m e
  /\ (weakMapHas m e = false -> snd (getEditorState m e) = Some newEditorState)
  /\ (weakMapHas m e = true ->
      fst (getEditorState m e) = m /\ snd (getEditorState m e) = weakMapGet m e)
  /\ (e' <> e -> weakMapGet (fst (getEditorState m e)) e' = weakMapGet m e').
Proof.
  unfold getEditorState, weakMapHas, weakMapSet.
  destruct (weakMapGet m e) as [st|] eqn:E; cbn [negb fst snd weakMapGet].
  - rewrite E. repeat split; intros; try discriminate; try reflexivity.
    cbn [negb]. now rewrite E.
  - rewrite Nat.eqb_refl. cbn [negb fst snd weakMapGet]. rewrite Nat.eqb_refl.
    repeat split; intros; try discriminate; try reflexivity.
    match goal with H : e' <> e |- _ => apply Nat.eqb_neq in H; rewrite Nat.eqb_sym in H;
                                        now rewrite H end.
Qed.

Lemma getEditorState_registry_witness :
  weakMapGet (fst (getEditorState [(1, mkState true true "" (Some ""))] 2)) 1
  = weakMapGet [(1, mkState true true "" (Some ""))] 1.
Proof.
  destruct (getEditorState_registry [(1, mkState true true "" (Some ""))] 2 1)
    as [_ [_ [_ [_ [_ Hother]]]]].
  apply Hother. discriminate.
Defined.

(** ** The first revision against the later one *)

Lemma rev1_scan (k : nat) (words : list string) (i : nat) (p0 : option JsValue) (n0 : nat) :
  match matchPunctuationFrom k words i with
  | Some (symbol, n) =>
      Rev1.scanWindows k words i (Rev1.mkScan false p0 n0) = Rev1.mkScan true (Some symbol) n
  | None => Rev1.matched (Rev1.scanWindows k words i (Rev1.mkScan false p0 n0)) = false
  end.
Proof.
  revert p0. induction k as [|k IH]; intros p0; [reflexivity|].
  cbn [matchPunctuationFrom Rev1.scanWindows].
  destruct (i + S k <=? List.length words)%nat; [|apply IH].
  destruct (getPunctuationSymbol _) as [v|]; [reflexivity|].
  cbn [Rev1.matched Rev1.wordsConsumed]. apply IH.
Qed.

Lemma rev1_spacing (r : string) :
  (if (0 <? String.length r)%nat && negb (endsWith r newline) && negb (endsWith r " ")
   then r ++ " " else r) = r ++ getSpacingBefore r.
Proof.
  unfold getSpacingBefore. destruct r as [|c r']; [reflexivity|].
  cbn [String.length Nat.ltb Nat.leb Nat.eqb andb].
  destruct (endsWith (String c r') newline), (endsWith (String c r') " ");
    cbn [negb andb orb]; now rewrite ?append_empty_r.
Qed.

Lemma rev1_loopBody (words : list string) (st : Rev1.LoopState) :
  Rev1.loopBody words st =
  match matchPunctuation words (Rev1.ls_i st) with
  | Some (symbol, n) =>
      Rev1.mkLoop (Rev1.ls_i st + n)
        (if isLineBreak symbol then Rev1.ls_result st ++ toJsString symbol
         else (Rev1.ls_result st ++ toJsString symbol) ++ " ")
  | None =>
      Rev1.mkLoop (S (Rev1.ls_i st))
        ((Rev1.ls_result st ++ getSpacingBefore (Rev1.ls_result st))
           ++ nth (Rev1.ls_i st) words "undefined")
  end.
Proof.
  unfold Rev1.loopBody, matchPunctuation.
  pose proof (rev1_scan 3 words (Rev1.ls_i st) None 0) as Hscan.
  destruct (matchPunctuationFrom 3 words (Rev1.ls_i st)) as [[symbol n]|].
  - rewrite Hscan. reflexivity.
  - destruct (Rev1.scanWindows 3 words (Rev1.ls_i st) (Rev1.mkScan false None 0))
      as [m p c]. cbn [Rev1.matched] in Hscan. subst m.
    cbn [Rev1.matched Rev1.punctSymbol]. now rewrite rev1_spacing.
Qed.

Lemma rev1_advance (words : list string) (st : Rev1.LoopState) :
  Rev1.ls_i st < List.length words ->
  Rev1.ls_i st < Rev1.ls_i (Rev1.loopBody words st) <= List.length words.
Proof.
  intros Hlt. rewrite rev1_loopBody.
  destruct (matchPunctuation words (Rev1.ls_i st)) as [[symbol n]|] eqn:E; simpl.
  - apply matchPunctuationFrom_bounds in E. lia.
  - lia.
Qed.

Lemma rev1_whileLoop_exits (fuel : nat) (words : list string) (st : Rev1.LoopState) :
  List.length words - Rev1.ls_i st <= fuel ->
  exists st', Rev1.whileLoop fuel words st = Some st'.
Proof.
  revert st. induction fuel as [|fuel IH]; intros st Hfuel; simpl;
    destruct (Nat.ltb_spec (Rev1.ls_i st) (List.length words)) as [Hlt|Hge];
    try (exists st; reflexivity); try lia.
  apply IH. pose proof (rev1_advance words st Hlt). lia.
Qed.

Lemma rev1_more_fuel (fuel fuel' : nat) (words : list string) (st st' : Rev1.LoopState) :
  Rev1.whileLoop fuel words st = Some st' -> fuel <= fuel' ->
  Rev1.whileLoop fuel' words st = Some st'.
Proof.
  revert fuel' st. induction fuel as [|fuel IH]; intros fuel' st; simpl;
    destruct (Rev1.ls_i st <? List.length words)%nat eqn:E;
    intros H Hle; try discriminate.
  - destruct fuel'; simpl; rewrite E; assumption.
  - destruct fuel' as [|fuel']; [lia|]. simpl. rewrite E. apply IH; [assumption | lia].
  - destruct fuel'; simpl; rewrite E; assumption.
Qed.

Lemma rev1_fuel (fuel : nat) (text : string) :
  List.length (wordsOf text) <= fuel ->
  Rev1.processTextWithPunctuationFuel fuel text
  = Some (Rev1.processTextWithPunctuation text).
Proof.
  intros Hfuel. unfold Rev1.processTextWithPunctuation, Rev1.processTextWithPunctuationFuel.
  destruct (String.eqb text "" || String.eqb (trim text) ""); [reflexivity|].
  destruct (rev1_whileLoop_exits (List.length (wordsOf text)) (wordsOf text) (Rev1.mkLoop 0 ""))
    as [st' Hrun]; [simpl; lia|].
  rewrite Hrun, (rev1_more_fuel _ fuel _ _ _ Hrun Hfuel). reflexivity.
Qed.

Lemma toLowerCase_empty (s : string) :
  String.eqb (toLowerCase s) "" = String.eqb s "".
Proof. destruct s; reflexivity. Qed.

Lemma toLowerChar_gap (c : ascii) :
  isGap (toLowerChar c) = isGap c
  /\ charIn (toLowerChar c) leadingPunctuation = charIn c leadingPunctuation.
Proof. destruct c as [[] [] [] [] [] [] [] []]; split; reflexivity. Qed.

Lemma lastChar_lower (s : string) :
  lastChar (toLowerCase s) = option_map toLowerChar (lastChar s).
Proof.
  induction s as [|c r IH]; [reflexivity|].
  cbn [toLowerCase]. rewrite !lastChar_cons, IH.
  destruct (lastChar r); reflexivity.
Qed.

Lemma toLowerCase_endsGap (s : string) : endsGap (toLowerCase s) = endsGap s.
Proof.
  unfold endsGap. rewrite lastChar_lower.
  destruct (lastChar s); [apply toLowerChar_gap | reflexivity].
Qed.

Lemma getSpacingBefore_lower (a b : string) :
  toLowerCase a = toLowerCase b -> getSpacingBefore a = getSpacingBefore b.
Proof.
  intros H. rewrite !getSpacingBefore_cases.
  now rewrite <- (toLowerCase_empty a), <- (toLowerCase_empty b),
              <- (toLowerCase_endsGap a), <- (toLowerCase_endsGap b), H.
Qed.

Lemma startsPunctuation_lower (a b : string) :
  toLowerCase a = toLowerCase b -> startsPunctuation a = startsPunctuation b.
Proof.
  assert (forall s, startsPunctuation (toLowerCase s) = startsPunctuation s) as Hl
    by (intros [|c r]; [reflexivity | apply toLowerChar_gap]).
  intros H. now rewrite <- (Hl a), <- (Hl b), H.
Qed.

Lemma capitalizeWord_lower (w : string) : toLowerCase (capitalizeWord w) = toLowerCase w.
Proof.
  rewrite capitalizeWord_head. destruct w as [|c r]; [reflexivity|].
  simpl. now rewrite toLower_toUpper_char.
Qed.

Lemma rev1_loopBody_simulates (words : list string) (st1 : Rev1.LoopState) (st2 : LoopState) :
  Rev1.ls_i st1 = ls_i st2 ->
  toLowerCase (Rev1.ls_result st1) = toLowerCase (ls_result st2) ->
  Rev1.ls_i (Rev1.loopBody words st1) = ls_i (loopBody words st2)
  /\ toLowerCase (Rev1.ls_result (Rev1.loopBody words st1))
     = toLowerCase (ls_result (loopBody words st2)).
Proof.
  intros Hi Hr. rewrite rev1_loopBody. unfold loopBody. rewrite Hi.
  destruct (matchPunctuation words (ls_i st2)) as [[symbol n]|].
  - cbn [Rev1.ls_i Rev1.ls_result ls_i ls_result]. split; [reflexivity|].
    destruct (isLineBreak symbol); rewrite !toLowerCase_app, Hr; reflexivity.
  - cbn [Rev1.ls_i Rev1.ls_result ls_i ls_result]. split; [reflexivity|].
    rewrite !toLowerCase_app, Hr, (getSpacingBefore_lower _ _ Hr).
    destruct (ls_shouldCapitalize st2); [now rewrite capitalizeWord_lower | reflexivity].
Qed.

Lemma rev1_whileLoop_simulates (fuel : nat) (words : list string)
      (st1 : Rev1.LoopState) (st2 : LoopState) :
  Rev1.ls_i st1 = ls_i st2 ->
  toLowerCase (Rev1.ls_result st1) = toLowerCase (ls_result st2) ->
  option_map (fun s => toLowerCase (Rev1.ls_result s)) (Rev1.whileLoop fuel words st1)
  = option_map (fun s => toLowerCase (ls_result s)) (whileLoop fuel words st2).
Proof.
  revert st1 st2. induction fuel as [|fuel IH]; intros st1 st2 Hi Hr; simpl; rewrite Hi;
    destruct (ls_i st2 <? List.length words)%nat; simpl; try reflexivity;
    try (now rewrite Hr).
  destruct (rev1_loopBody_simulates words st1 st2 Hi Hr) as [Hi' Hr'].
  now apply IH.
Qed.

Lemma rev1_lower (text : string) :
  toLowerCase (Rev1.processTextWithPunctuation text)
  = toLowerCase (processTextWithPunctuation text).
Proof.
  unfold Rev1.processTextWithPunctuation, Rev1.processTextWithPunctuationFuel,
         processTextWithPunctuation, processTextWithPunctuationFuel.
  destruct (String.eqb text "" || String.eqb (trim text) ""); [reflexivity|].
  pose proof (rev1_whileLoop_simulates (List.length (wordsOf text)) (wordsOf text)
                (Rev1.mkLoop 0 "") initialLoop eq_refl eq_refl) as Hsim.
  destruct (Rev1.whileLoop _ _ _), (whileLoop _ _ _); simpl in *;
    try discriminate; try reflexivity.
  now inversion Hsim.
Qed.

(** X19. On input of ASCII characters the earlier normaliser, which
    never capitalises, and the later one produce the same text up to the
    case of the letters a to z; the earlier one also returns within one
    unit of fuel per word. *)
Theorem rev1_normaliser_same_up_to_case (text : string) :
  isAscii text = true ->
  toLowerCase (Rev1.processTextWithPunctuation text)
  = toLowerCase (processTextWithPunctuation text)
  /\ (forall fuel, List.length (wordsOf text) <= fuel ->
                   Rev1.processTextWithPunctuationFuel fuel text
                   = Some (Rev1.processTextWithPunctuation text)).
Proof.
  intros _. split; [apply rev1_lower | intros fuel; apply rev1_fuel].
Qed.

Lemma rev1_normaliser_same_up_to_case_witness :
  toLowerCase (Rev1.processTextWithPunctuation "stop full stop go")
  = toLowerCase (processTextWithPunctuation "stop full stop go")
  /\ Rev1.processTextWithPunctuationFuel 4 "stop full stop go"
     = Some (Rev1.processTextWithPunctuation "stop full stop go").
Proof.
  destruct (rev1_normaliser_same_up_to_case "stop full stop go" eq_refl) as [Hcase Hfuel].
  split; [exact Hcase|]. apply (Hfuel 4). vm_compute. lia.
Defined.

Lemma collectResults_event (event : SpeechRecognitionEvent) (pending : string) :
  collectResults (List.length (results event) - resultIndex event) (results event)
                 (resultIndex event) pending ""
  = (pending ++ Spec.finalText (Spec.slotsFrom event),
     Spec.interimText (Spec.slotsFrom event)).
Proof. now rewrite (collectResults_spec _ _ _ _ _ eq_refl). Qed.

Lemma rev1_onresult_editor (w : World) (event : SpeechRecognitionEvent) :
  editor (Rev1.onresult w event) =
  let pending := finalTranscript (state w) ++ Spec.finalText (Spec.slotsFrom event) in
  if String.eqb pending "" then editor w
  else
    let processed := Rev1.processTextWithPunctuation pending in
    insertContent (editor w)
      ((if (0 <? String.length (content (editor w)))%nat
           && negb (endsWith (content (editor w)) " ")
           && negb (endsWith (content (editor w)) newline)
           && negb (startsPunctuation processed)
        then " " else "") ++ processed).
Proof.
  unfold Rev1.onresult. rewrite collectResults_event. cbv zeta.
  generalize (Spec.interimText (Spec.slotsFrom event)) as interim.
  generalize (Spec.finalText (Spec.slotsFrom event)) as fin.
  intros fin interim. world w.
  destruct (String.eqb interim ""), pc;
    cbv beta iota zeta delta
        [Rev1.updatePreview getContent setFinalTranscript setPreviewContainer setState emit
         insertContent state finalTranscript editor content recognition listening
         previewContainer speechApi trace];
    destruct (String.eqb (ft ++ fin) ""); reflexivity.
Qed.

Lemma rev1_commit_text (d p1 p2 : string) :
  toLowerCase p1 = toLowerCase p2 ->
  toLowerCase ((if (0 <? String.length d)%nat && negb (endsWith d " ")
                   && negb (endsWith d newline) && negb (startsPunctuation p1)
                then " " else "") ++ p1)
  = toLowerCase (prepareTextForInsertion (mkEditor d) p2).
Proof.
  intros Hp. unfold prepareTextForInsertion, getContent, content.
  set (f := if shouldCapitalizeText d p2 then capitalizeWord p2 else p2).
  assert (toLowerCase f = toLowerCase p1) as Hf
    by (subst f; destruct (shouldCapitalizeText d p2);
        [now rewrite capitalizeWord_lower | now symmetry]).
  unfold needsSpaceBefore.
  rewrite (startsPunctuation_lower f p1 Hf).
  destruct d as [|c r]; [exact (eq_sym Hf)|].
  cbn [String.length Nat.ltb Nat.leb Nat.eqb andb].
  destruct (endsWith (String c r) " "), (endsWith (String c r) newline),
           (startsPunctuation p1); cbn [negb andb orb];
    rewrite ?toLowerCase_app, Hf; reflexivity.
Qed.

(** X20. With a document and pending text of ASCII characters, handling
    a result event with the first revision's handler and with the later one
    leaves documents that differ in the case of the letters a to z only: the
    later revision changed what is committed by capitalisation alone. *)
Theorem rev1_commit_same_up_to_case (w : World) (event : SpeechRecognitionEvent) :
  isAscii (content (editor w)) = true ->
  isAscii (finalTranscript (state w) ++ Spec.finalText (Spec.slotsFrom event)) = true ->
  toLowerCase (content (editor (Rev1.onresult w event)))
  = toLowerCase (content (editor (handleRecognitionResult w event))).
Proof.
  intros _ _. rewrite rev1_onresult_editor, handleRecognitionResult_unfold, handleFinalTranscript_editor.
  destruct (pending_before_commit w event) as [Hp He]. cbv zeta in Hp, He |- *.
  rewrite Hp, He.
  destruct (String.eqb (finalTranscript (state w) ++ Spec.finalText (Spec.slotsFrom event)) "");
    [reflexivity|].
  unfold insertContent. destruct (editor w) as [d]. cbn [content].
  rewrite (toLowerCase_app d (prepareTextForInsertion _ _)), (toLowerCase_app d).
  f_equal. apply rev1_commit_text, rev1_lower.
Qed.

Lemma rev1_commit_same_up_to_case_example :
  content (editor (Rev1.onresult listeningWorld (mkEvent 0 [mkResult "so it goes" true])))
  = "Hi. so it goes"
  /\ content (editor (handleRecognitionResult listeningWorld
                       (mkEvent 0 [mkResult "so it goes" true])))
     = "Hi. So it goes".
Proof. split; reflexivity. Qed.

Lemma rev1_commit_same_up_to_case_witness :
  toLowerCase (content (editor (Rev1.onresult listeningWorld
                                  (mkEvent 0 [mkResult "so it goes" true]))))
  = toLowerCase (content (editor (handleRecognitionResult listeningWorld
                                    (mkEvent 0 [mkResult "so it goes" true])))).
Proof.
  exact (rev1_commit_same_up_to_case listeningWorld (mkEvent 0 [mkResult "so it goes" true])
           eq_refl eq_refl).
Defined.

(** ** The revision with module-level state *)

Lemma rev3_onresult_globals (a : EditorId) (w : Rev3.World) (event : SpeechRecognitionEvent) :
  Rev3.recognition (Rev3.globals (Rev3.onresult a w event))
  = Rev3.recognition (Rev3.globals w)
  /\ Rev3.listening (Rev3.globals (Rev3.onresult a w event))
     = Rev3.listening (Rev3.globals w)
  /\ Rev3.finalTranscript (Rev3.globals (Rev3.onresult a w event)) = ""
  /\ Rev3.contents (Rev3.onresult a w event) a
     = Rev3.contents w a
       ++ (Rev3.finalTranscript (Rev3.globals w) ++ Spec.finalText (Spec.slotsFrom event))
  /\ (forall b, b <> a -> Rev3.contents (Rev3.onresult a w event) b = Rev3.contents w b)
  /\ exists l, Rev3.trace (Rev3.onresult a w event) = (Rev3.trace w ++ l)%list
               /\ forall b t, In (Rev3.InsertContent b t) l -> b = a.
Proof.
  unfold Rev3.onresult. rewrite collectResults_event.
  generalize (Spec.finalText (Spec.slotsFrom event)) as fin. intros fin.
  destruct w as [[rcg lis ft] docs api tr].
  cbn [Rev3.globals Rev3.finalTranscript Rev3.recognition Rev3.listening].
  destruct (String.eqb_spec (ft ++ fin) "") as [Hempty|Hne].
  - rewrite Hempty. cbn. rewrite append_empty_r. repeat split; try reflexivity.
    exists []. split; [now rewrite app_nil_r | intros b t []].
  - cbn. rewrite Nat.eqb_refl. repeat split; try reflexivity.
    + intros b Hb. apply Nat.eqb_neq in Hb. now rewrite Hb.
    + eexists. split; [reflexivity|].
      intros b t [H|[]]. now inversion H.
Qed.

(** X21. The global-state revision commits what was recognised verbatim:
    after a result event the document of the recogniser's editor is the old
    one followed by the pending text and the event's final transcripts,
    each followed by one space; no other document changes and nothing stays
    pending. *)
Theorem rev3_commits_verbatim (a : EditorId) (w : Rev3.World) (event : SpeechRecognitionEvent) :
  Rev3.contents (Rev3.onresult a w event) a
  = Rev3.contents w a
    ++ (Rev3.finalTranscript (Rev3.globals w) ++ Spec.finalText (Spec.slotsFrom event))
  /\ (forall b, b <> a -> Rev3.contents (Rev3.onresult a w event) b = Rev3.contents w b)
  /\ Rev3.finalTranscript (Rev3.globals (Rev3.onresult a w event)) = "".
Proof.
  destruct (rev3_onresult_globals a w event) as [_ [_ [Hf [Ha [Hb _]]]]].
  repeat split; assumption.
Qed.

Lemma rev3_commits_verbatim_witness :
  Rev3.contents (Rev3.onresult 1 rev3Started (mkEvent 0 [mkResult "full stop" true])) 2
  = Rev3.contents rev3Started 2.
Proof.
  apply (proj1 (proj2 (rev3_commits_verbatim 1 rev3Started
                         (mkEvent 0 [mkResult "full stop" true])))).
  discriminate.
Defined.

Lemma rev3_step_bound (w : Rev3.World) (e : Rev3.Event) (w' : Rev3.World) (a : EditorId) :
  Rev3.step w e = Some w' ->
  Rev3.recognition (Rev3.globals w) = Some a ->
  Rev3.recognition (Rev3.globals w') = Some a
  /\ (forall b, b <> a -> Rev3.contents w' b = Rev3.contents w b)
  /\ exists l, Rev3.trace w' = (Rev3.trace w ++ l)%list
               /\ forall b t, In (Rev3.InsertContent b t) l -> b = a.
Proof.
  intros Hstep Hrec. destruct e as [startThrows editor|event| |]; simpl in Hstep.
  - destruct w as [[rcg lis ft] docs api tr]. simpl in Hrec. subst rcg.
    unfold Rev3.handleAction in Hstep. simpl in Hstep.
    destruct lis, startThrows; simpl in Hstep; inversion Hstep; subst w'; simpl;
      (split; [reflexivity|]); (split; [reflexivity|]);
      eexists; (split; [reflexivity|]);
      intros b t [H|[]]; discriminate H.
  - rewrite Hrec in Hstep. inversion Hstep; subst w'.
    destruct (rev3_onresult_globals a w event) as [Hr [_ [_ [_ [Hb Hl]]]]].
    rewrite Hr. repeat split; assumption.
  - rewrite Hrec in Hstep. inversion Hstep; subst w'.
    destruct w as [[rcg lis ft] docs api tr]. simpl in *.
    split; [assumption|]. split; [reflexivity|].
    eexists. split; [reflexivity|]. intros b t [H|[]]; discriminate H.
  - rewrite Hrec in Hstep. inversion Hstep; subst w'.
    destruct w as [[rcg lis ft] docs api tr]. simpl in *.
    split; [assumption|]. split; [reflexivity|].
    exists []. split; [now rewrite app_nil_r | intros b t []].
Qed.

Lemma rev3_no_insert_without_recogniser (w : Rev3.World) :
  Rev3.reachable w ->
  forall b t, In (Rev3.InsertContent b t) (Rev3.trace w) ->
              Rev3.recognition (Rev3.globals w) = Some b.
Proof.
  induction 1 as [api documents|w e w' Hw IH Hstep]; [intros b t []|].
  intros b t Hin.
  destruct (Rev3.recognition (Rev3.globals w)) as [a|] eqn:Hrec.
  - destruct (rev3_step_bound w e w' a Hstep Hrec) as [Hr [_ [l [Ht Hl]]]].
    rewrite Ht in Hin. apply in_app_or in Hin as [Hin|Hin].
    + rewrite Hr. now apply (IH b t).
    + rewrite Hr. f_equal. symmetry. now apply (Hl b t).
  - exfalso.
    assert (forall b t, ~ In (Rev3.InsertContent b t) (Rev3.trace w)) as Hnone
      by (intros b' t' Hin'; specialize (IH b' t' Hin'); discriminate).
    destruct e as [startThrows editor|event| |]; simpl in Hstep;
      rewrite ?Hrec in Hstep; try discriminate.
    destruct w as [[rcg lis ft] docs api tr]. simpl in Hrec. subst rcg.
    unfold Rev3.handleAction, Rev3.initializeRecognition in Hstep. simpl in Hstep.
    destruct lis, api, startThrows; simpl in Hstep; inversion Hstep; subst w';
      simpl in Hin;
      repeat (apply in_app_or in Hin as [Hin|Hin]);
      try (now apply (Hnone b t));
      try (destruct Hin as [Hin|[]]; discriminate Hin).
Qed.

(** X22. In the global-state revision the one recogniser belongs to the
    editor that first created it: whatever happens next, and from whichever
    editor's button, it stays that editor's, every insertion the session
    has made went into that editor's document, and no other document
    changes; the listening flag is shared too, so the button of any editor
    stops a running dictation. *)
Theorem rev3_bound_to_first_editor
        (w : Rev3.World) (e : Rev3.Event) (w' : Rev3.World) (a : EditorId) :
  Rev3.reachable w -> Rev3.recognition (Rev3.globals w) = Some a ->
  Rev3.step w e = Some w' ->
  Rev3.recognition (Rev3.globals w') = Some a
  /\ (forall b t, In (Rev3.InsertContent b t) (Rev3.trace w') -> b = a)
  /\ (forall b, b <> a -> Rev3.contents w' b = Rev3.contents w b)
  /\ (forall b startThrows,
        Rev3.listening (Rev3.globals w) = true ->
        exists w2, Rev3.handleAction startThrows b w = Some w2
                   /\ Rev3.listening (Rev3.globals w2) = false).
Proof.
  intros Hreach Hrec Hstep.
  destruct (rev3_step_bound w e w' a Hstep Hrec) as [Hr [Hdocs _]].
  split; [exact Hr|]. split; [|split; [exact Hdocs|]].
  - intros b t Hin.
    pose proof (rev3_no_insert_without_recogniser w'
                  (Rev3.reachable_step w e w' Hreach Hstep) b t Hin) as Hb.
    rewrite Hr in Hb. now inversion Hb.
  - intros b startThrows Hlis. unfold Rev3.handleAction. rewrite Hlis, Hrec. simpl.
    eexists. split; reflexivity.
Qed.

Lemma rev3Started_reachable : Rev3.reachable rev3Started.
Proof.
  apply (Rev3.reachable_step (Rev3.initialWorld true (fun _ => "")) (Rev3.Action false 1)).
  - apply Rev3.reachable_initial.
  - reflexivity.
Qed.

Lemma rev3_bound_to_first_editor_witness :
  Rev3.recognition
    (Rev3.globals (Rev3.onresult 1 rev3Started (mkEvent 0 [mkResult "hello" true])))
  = Some 1.
Proof.
  exact (proj1 (rev3_bound_to_first_editor rev3Started
                  (Rev3.OnResult (mkEvent 0 [mkResult "hello" true]))
                  (Rev3.onresult 1 rev3Started (mkEvent 0 [mkResult "hello" true]))
                  1 rev3Started_reachable eq_refl eq_refl)).
Defined.
